(** * sql-tap: the PostgreSQL relay of [proxy/postgres/conn.go]

    A shallow embedding of the per-connection relay: the capture hooks for
    the simple and the extended query protocol, transaction detection, event
    emission onto the bounded channel, the startup relay and
    [parseRowsAffected], followed by the properties proved about them.

    Go strings are byte sequences, modelled by [string] (a list of 8-bit
    [ascii]); [uint64] and [int64] are [Z] with the wrap-around written out;
    the [preparedStmts] map is a [gmap string string]. *)

From Stdlib Require Import ZArith Lia Bool Ascii.
From Stdlib Require String.
From stdpp Require Import base option list gmap strings.

Local Open Scope Z_scope.

(** ** Pieces of Go's standard library used by the relay *)

(** The code of a byte. *)
Definition byte_code (c : ascii) : Z := Z.of_N (N_of_ascii c).

Definition byte_of_code (z : Z) : ascii := ascii_of_N (Z.to_N z).

Module strings.

(** [strings.ToUpper] and [strings.TrimSpace] work on the runes of a UTF-8
    string with the tables of package [unicode]. The relay only needs them
    as functions from strings to strings, so they are an interface here:
    every property below holds for whatever the two functions are. *)
Class Unicode := {
  ToUpper : string -> string;
  TrimSpace : string -> string
}.

(** [strings.HasPrefix(s, prefix)]:
    [len(s) >= len(prefix) && s[:len(prefix)] == prefix]. *)
Definition HasPrefix (s prefix : string) : bool := String.prefix prefix s.

(** [strings.Split(s, sep)] for a separator of one byte, which is how the
    relay calls it: the string is cut at every occurrence of the byte, and
    a string without the byte comes back as the one-element slice. *)
Fixpoint Split (s : string) (sep : ascii) : list string :=
  match s with
  | EmptyString => [EmptyString]
  | String c rest =>
      if Ascii.eqb c sep then EmptyString :: Split rest sep
      else match Split rest sep with
           | cur :: more => String c cur :: more
           | [] => [String c EmptyString]
           end
  end.

End strings.

Module strconv.

Definition maxUint64 : Z := 2 ^ 64 - 1.

(** The two [*NumError] kinds that matter to a caller with a valid base
    and bit size. *)
Inductive NumError := ErrSyntax | ErrRange.

Definition is_digit (c : ascii) : bool :=
  (48 <=? byte_code c) && (byte_code c <=? 57).

(** [lower(c)] is [c | ('x' - 'X')]. *)
Definition lower (c : ascii) : Z := Z.lor (byte_code c) 32.

(** The digit loop of [ParseUint] for an explicit base in 2..36 (the
    underscore case belongs to base 0 and is not reachable then): [n] is
    the [uint64] accumulator, [cutoff] the smallest number whose product
    with the base overflows, [maxVal] the largest value of the bit size. *)
Fixpoint parseUintLoop (base cutoff maxVal : Z) (s : string) (n : Z)
  : Z * option NumError :=
  match s with
  | EmptyString => (n, None)
  | String c rest =>
      let d :=
        if is_digit c then Some (byte_code c - 48)
        else if (97 <=? lower c) && (lower c <=? 122) then Some (lower c - 97 + 10)
        else None in
      match d with
      | None => (0, Some ErrSyntax)
      | Some d =>
          if base <=? d then (0, Some ErrSyntax)
          else if cutoff <=? n then (maxVal, Some ErrRange)
          else
            let n := (n * base) mod 2 ^ 64 in
            let n1 := (n + d) mod 2 ^ 64 in
            if (n1 <? n) || (maxVal <? n1) then (maxVal, Some ErrRange)
            else parseUintLoop base cutoff maxVal rest n1
      end
  end.

(** [strconv.ParseUint(s, base, bitSize)] for [2 <= base <= 36] and
    [1 <= bitSize <= 64]. *)
Definition ParseUint (s : string) (base bitSize : Z) : Z * option NumError :=
  match s with
  | EmptyString => (0, Some ErrSyntax)
  | _ =>
      let cutoff := maxUint64 / base + 1 in
      let maxVal := (2 ^ bitSize - 1) mod 2 ^ 64 in
      parseUintLoop base cutoff maxVal s 0
  end.

(** [strconv.ParseInt(s, base, bitSize)], same domain. The value that
    comes with a range error is the nearest bound, not zero. *)
Definition ParseInt (s : string) (base bitSize : Z) : Z * option NumError :=
  match s with
  | EmptyString => (0, Some ErrSyntax)
  | String c rest =>
      let '(neg, body) :=
        if Ascii.eqb c "+" then (false, rest)
        else if Ascii.eqb c "-" then (true, rest)
        else (false, s) in
      match ParseUint body base bitSize with
      | (_, Some ErrSyntax) => (0, Some ErrSyntax)
      | (un, _) =>
          let cutoff := 2 ^ (bitSize - 1) in
          if negb neg && (cutoff <=? un) then (cutoff - 1, Some ErrRange)
          else if neg && (cutoff <? un) then (- cutoff, Some ErrRange)
          else ((if neg then - un else un), None)
      end
  end.

(** Decimal digits of [u], most significant first, in front of [acc]. Twenty
    rounds are enough for a [uint64]. *)
Fixpoint formatBits (fuel : nat) (u : Z) (acc : string) : string :=
  match fuel with
  | O => acc
  | S fuel' =>
      if u <? 10 then String (byte_of_code (48 + u)) acc
      else formatBits fuel' (u / 10) (String (byte_of_code (48 + u mod 10)) acc)
  end.

(** [strconv.FormatUint(u, 10)]. *)
Definition FormatUint (u : Z) : string := formatBits 20 u EmptyString.

End strconv.

(** ** [parseRowsAffected] *)

(** [None] stands for the run-time panic of an index out of range. *)
Definition parseRowsAffected (tag : string) : option Z :=
  let parts := strings.Split tag " " in
  if (length parts =? 0)%nat then Some 0
  else
    tok ← parts !! (length parts - 1)%nat;
    Some (fst (strconv.ParseInt tok 10 64)).

(** ** Time and randomness *)

(** [time.Time], as a number of nanoseconds; the zero value is [0]. *)
Definition Time := Z.

Module hex.

(** One hexadecimal digit of ["0123456789abcdef"]. *)
Definition hextable (d : Z) : ascii :=
  if d <? 10 then byte_of_code (48 + d) else byte_of_code (87 + d).

(** [hex.Encode]: two digits per byte, high nibble first. *)
Fixpoint Encode (src : list Z) : string :=
  match src with
  | [] => EmptyString
  | v :: rest =>
      String (hextable (Z.shiftr v 4)) (String (hextable (Z.land v 15)) (Encode rest))
  end.

End hex.

Module uuid.

(** A UUID is sixteen bytes. *)
Definition UUID := list Z.

(** The sixteen bytes read from the random source, most significant
    first, for a 128-bit draw [r]. *)
Definition bytes_of (r : N) : UUID :=
  map (fun i : nat => Z.land (Z.shiftr (Z.of_N r) (8 * (15 - Z.of_nat i))) 255) (seq 0 16).

(** [uuid.NewRandom]: the draw with the version-4 and variant bits set. *)
Definition NewRandom (r : N) : UUID :=
  let u := bytes_of r in
  let u := alter (fun b => Z.lor (Z.land b 15) 64) 6%nat u in
  alter (fun b => Z.lor (Z.land b 63) 128) 8%nat u.

(** [UUID.String]: the canonical 8-4-4-4-12 form. *)
Definition String (u : UUID) : string :=
  hex.Encode (take 4 u) +:+ "-" +:+
  hex.Encode (take 2 (drop 4 u)) +:+ "-" +:+
  hex.Encode (take 2 (drop 6 u)) +:+ "-" +:+
  hex.Encode (take 2 (drop 8 u)) +:+ "-" +:+
  hex.Encode (drop 10 u).

End uuid.

(** ** The protocol messages the relay looks at *)

Module pgproto.

Module Query.
Record t := Build { String : string }.
End Query.

Module Parse.
Record t := Build {
  Name : string;
  Query : string;
  ParameterOIDs : list Z
}.
End Parse.

Module Bind.
(** A parameter is a byte slice; [None] is the nil slice of SQL NULL. *)
Record t := Build {
  DestinationPortal : string;
  PreparedStatement : string;
  ParameterFormatCodes : list Z;
  Parameters : list (option string);
  ResultFormatCodes : list Z
}.
End Bind.

Module Execute.
Record t := Build { Portal : string; MaxRows : Z }.
End Execute.

(** What [Backend.Receive] hands to [captureClientMsg]; the messages
    without a case in its type switch are kept as tag and payload. *)
Inductive FrontendMessage :=
| MsgQuery (m : Query.t)
| MsgParse (m : Parse.t)
| MsgBind (m : Bind.t)
| MsgExecute (m : Execute.t)
| MsgFrontendOther (tag : ascii) (payload : string).

Module CommandComplete.
Record t := Build { CommandTag : string }.
End CommandComplete.

Module ErrorResponse.
Record t := Build { Severity : string; Code : string; Message : string }.
End ErrorResponse.

Module ReadyForQuery.
Record t := Build { TxStatus : ascii }.
End ReadyForQuery.

Inductive BackendMessage :=
| MsgCommandComplete (m : CommandComplete.t)
| MsgErrorResponse (m : ErrorResponse.t)
| MsgReadyForQuery (m : ReadyForQuery.t)
| MsgBackendOther (tag : ascii) (payload : string).

End pgproto.

(** [string(p)] for a byte slice [p]: the nil slice gives the empty string. *)
Definition string_of_bytes (p : option string) : string := default EmptyString p.

Module proxy.

(** Modelled from the spec: package [proxy] (the [Event] struct and the
    [Op] constants) is not among the sources; section 3 of the
    specification lists the operations and the fields, and [conn.go] fills
    in [ID], [Op], [Query], [Args], [StartTime] and [TxID]. *)
Inductive OpKind := OpQuery | OpExecute | OpBegin | OpCommit | OpRollback.

Record Event := Build {
  ID : string;
  Op : OpKind;
  Query : string;
  Args : list string;
  StartTime : Time;
  TxID : string
}.

End proxy.

(** ** Connection state and its surroundings *)

(** The fields of [conn] that the capture hooks read and write. *)
Record conn := Conn {
  preparedStmts : gmap string string;
  lastParse : string;
  lastBindArgs : list string;
  lastBindStmt : string;
  executeStart : Time;
  activeTxID : string;
  nextID : Z
}.

(** A buffered channel of events: its capacity and the queued elements,
    oldest first. *)
Record chan := Chan {
  chan_cap : nat;
  chan_buf : list proxy.Event
}.

(** Everything a capture hook can touch: the [conn] fields, the channel that
    [c.events] refers to (shared with the subscriber and with the other
    relays), the wall clock and the random source. The clock and the random
    source are sequences consumed one reading at a time. [w_emitted] is a
    history variable: every event handed to [emitEvent], in order, whether
    or not the channel took it. *)
Record World := Build_World {
  w_conn : conn;
  w_events : chan;
  w_emitted : list proxy.Event;
  w_clock : nat -> Time;
  w_ticks : nat;
  w_entropy : nat -> N;
  w_draws : nat
}.

Definition with_conn (c : conn) (w : World) : World :=
  Build_World c (w_events w) (w_emitted w) (w_clock w) (w_ticks w) (w_entropy w) (w_draws w).

Definition with_events (ch : chan) (w : World) : World :=
  Build_World (w_conn w) ch (w_emitted w) (w_clock w) (w_ticks w) (w_entropy w) (w_draws w).

Definition with_emitted (l : list proxy.Event) (w : World) : World :=
  Build_World (w_conn w) (w_events w) l (w_clock w) (w_ticks w) (w_entropy w) (w_draws w).

Definition with_ticks (n : nat) (w : World) : World :=
  Build_World (w_conn w) (w_events w) (w_emitted w) (w_clock w) n (w_entropy w) (w_draws w).

Definition with_draws (n : nat) (w : World) : World :=
  Build_World (w_conn w) (w_events w) (w_emitted w) (w_clock w) (w_ticks w) (w_entropy w) n.

Definition set_preparedStmts (m : gmap string string) (c : conn) : conn :=
  Conn m (lastParse c) (lastBindArgs c) (lastBindStmt c) (executeStart c) (activeTxID c) (nextID c).

Definition set_lastParse (q : string) (c : conn) : conn :=
  Conn (preparedStmts c) q (lastBindArgs c) (lastBindStmt c) (executeStart c) (activeTxID c) (nextID c).

Definition set_lastBindArgs (a : list string) (c : conn) : conn :=
  Conn (preparedStmts c) (lastParse c) a (lastBindStmt c) (executeStart c) (activeTxID c) (nextID c).

Definition set_lastBindStmt (s : string) (c : conn) : conn :=
  Conn (preparedStmts c) (lastParse c) (lastBindArgs c) s (executeStart c) (activeTxID c) (nextID c).

Definition set_executeStart (t : Time) (c : conn) : conn :=
  Conn (preparedStmts c) (lastParse c) (lastBindArgs c) (lastBindStmt c) t (activeTxID c) (nextID c).

Definition set_activeTxID (s : string) (c : conn) : conn :=
  Conn (preparedStmts c) (lastParse c) (lastBindArgs c) (lastBindStmt c) (executeStart c) s (nextID c).

Definition set_nextID (n : Z) (c : conn) : conn :=
  Conn (preparedStmts c) (lastParse c) (lastBindArgs c) (lastBindStmt c) (executeStart c) (activeTxID c) n.

(** What running a piece of the relay comes to: it returns a value in a new
    world, it panics, or the goroutine is parked on a channel operation that
    cannot proceed. *)
Inductive Res (A : Type) :=
| Ok (a : A) (w : World)
| Panic
| Parked.
Arguments Ok {A} a w.
Arguments Panic {A}.
Arguments Parked {A}.

Definition M (A : Type) : Type := World -> Res A.

Definition ret {A} (a : A) : M A := fun w => Ok a w.

Definition bind {A B} (m : M A) (k : A -> M B) : M B :=
  fun w => match m w with
           | Ok a w' => k a w'
           | Panic => Panic
           | Parked => Parked
           end.

Declare Scope relay_scope.
Delimit Scope relay_scope with relay.
Notation "'let!' x ':=' m 'in' k" := (bind m (fun x => k))
  (at level 10, x name, m at level 100, k at level 200) : relay_scope.
Notation "m '>>' k" := (bind m (fun _ => k))
  (at level 190, k at level 200, right associativity) : relay_scope.
Local Open Scope relay_scope.

Definition getConn : M conn := fun w => Ok (w_conn w) w.

Definition modifyConn (f : conn -> conn) : M unit :=
  fun w => Ok tt (with_conn (f (w_conn w)) w).

Definition panic {A} : M A := fun _ => Panic.

(** [time.Now()]: the next reading of the clock. *)
Definition time_Now : M Time :=
  fun w => Ok (w_clock w (w_ticks w)) (with_ticks (S (w_ticks w)) w).

(** [uuid.New()]: sixteen fresh bytes from the random source. (It panics
    when the source fails; [crypto/rand] of the Go version in [go.mod]
    does not fail, so every draw succeeds.) *)
Definition uuid_New : M uuid.UUID :=
  fun w => Ok (uuid.NewRandom (w_entropy w (w_draws w))) (with_draws (S (w_draws w)) w).

(** The runtime's [chansend(c, ep, block)] on [c.events]: the element is
    queued when the buffer has room; otherwise a blocking send parks the
    goroutine and a non-blocking one reports that nothing was sent. A
    receiver that is already waiting is read as a receive that came first
    (the step [SubscriberReceive] below), which is the same for a channel
    with a buffer. *)
Definition chansend (ep : proxy.Event) (block : bool) : M bool :=
  fun w =>
    let c := w_events w in
    if (length (chan_buf c) <? chan_cap c)%nat
    then Ok true (with_events (Chan (chan_cap c) (chan_buf c ++ [ep])) w)
    else if block then Parked else Ok false w.

(** ** The capture hooks of [conn.go] *)

Definition generateID : M string :=
  modifyConn (fun c => set_nextID ((nextID c + 1) mod 2 ^ 64) c) >>
  let! c := getConn in
  ret (strconv.FormatUint (nextID c)).

Definition emitEvent (ev : proxy.Event) : M unit :=
  (fun w => Ok tt (with_emitted (w_emitted w ++ [ev]) w)) >>
  let! selected := chansend ev false in
  ret tt.

Section Hooks.

Context `{strings.Unicode}.

Definition detectTx (query : string) : M unit :=
  let upper := strings.ToUpper (strings.TrimSpace query) in
  if strings.HasPrefix upper "BEGIN" then
    let! id := uuid_New in
    modifyConn (set_activeTxID (uuid.String id))
  else if strings.HasPrefix upper "COMMIT" || strings.HasPrefix upper "ROLLBACK" then
    modifyConn (set_activeTxID EmptyString)
  else ret tt.

Definition handleSimpleQuery (m : pgproto.Query.t) : M unit :=
  let q := pgproto.Query.String m in
  detectTx q >>
  let! id := generateID in
  let! now := time_Now in
  let! c := getConn in
  emitEvent (proxy.Build id proxy.OpQuery q [] now (activeTxID c)).

Definition handleParse (m : pgproto.Parse.t) : M unit :=
  modifyConn (set_lastParse (pgproto.Parse.Query m)) >>
  if decide (pgproto.Parse.Name m ≠ EmptyString) then
    modifyConn (fun c =>
      set_preparedStmts (<[pgproto.Parse.Name m := pgproto.Parse.Query m]> (preparedStmts c)) c)
  else ret tt.

(** The loop of [handleBind]: slot [i] of the fresh slice receives
    [string(p)] for the [i]-th parameter [p]. *)
Fixpoint fillArgs (i : nat) (params : list (option string)) (args : list string)
  : list string :=
  match params with
  | [] => args
  | p :: rest => fillArgs (S i) rest (<[i := string_of_bytes p]> args)
  end.

Definition handleBind (m : pgproto.Bind.t) : M unit :=
  modifyConn (set_lastBindStmt (pgproto.Bind.PreparedStatement m)) >>
  modifyConn (set_lastBindArgs
                (replicate (length (pgproto.Bind.Parameters m)) EmptyString)) >>
  modifyConn (fun c =>
    set_lastBindArgs (fillArgs 0 (pgproto.Bind.Parameters m) (lastBindArgs c)) c).

Definition handleExecute : M unit :=
  let! c := getConn in
  let q := lastParse c in
  let q :=
    if decide (lastBindStmt c ≠ EmptyString) then
      match preparedStmts c !! lastBindStmt c with
      | Some stored => stored
      | None => q
      end
    else q in
  detectTx q >>
  let! now := time_Now in
  modifyConn (set_executeStart now) >>
  let! id := generateID in
  let! c := getConn in
  emitEvent (proxy.Build id proxy.OpExecute q (lastBindArgs c) (executeStart c) (activeTxID c)).

Definition handleCommandComplete (m : pgproto.CommandComplete.t) : M unit :=
  match parseRowsAffected (pgproto.CommandComplete.CommandTag m) with
  | Some rows => ret tt
  | None => panic
  end.

Definition handleErrorResponse (m : pgproto.ErrorResponse.t) : M unit := ret tt.

Definition captureClientMsg (msg : pgproto.FrontendMessage) : M unit :=
  match msg with
  | pgproto.MsgQuery m => handleSimpleQuery m
  | pgproto.MsgParse m => handleParse m
  | pgproto.MsgBind m => handleBind m
  | pgproto.MsgExecute _ => handleExecute
  | pgproto.MsgFrontendOther _ _ => ret tt
  end.

Definition captureUpstreamMsg (msg : pgproto.BackendMessage) : M unit :=
  match msg with
  | pgproto.MsgCommandComplete m => handleCommandComplete m
  | pgproto.MsgErrorResponse m => handleErrorResponse m
  | _ => ret tt
  end.

(** What happens around one connection, one step at a time: the client
    pump decodes a message, the upstream pump decodes a message, the
    subscriber takes the oldest event off the channel, or another relay
    tries to send an event of its own. The upstream pump writes no field
    and the other two touch the channel only, so interleaving whole
    hooks loses nothing. *)
Inductive Action :=
| FromClient (msg : pgproto.FrontendMessage)
| FromUpstream (msg : pgproto.BackendMessage)
| SubscriberReceive
| ForeignSend (ev : proxy.Event).

Definition step (a : Action) : M unit :=
  match a with
  | FromClient msg => captureClientMsg msg
  | FromUpstream msg => captureUpstreamMsg msg
  | SubscriberReceive =>
      fun w => Ok tt (with_events (Chan (chan_cap (w_events w)) (tail (chan_buf (w_events w)))) w)
  | ForeignSend ev => let! selected := chansend ev false in ret tt
  end.

Fixpoint run (tr : list Action) : M unit :=
  match tr with
  | [] => ret tt
  | a :: rest => step a >> run rest
  end.

End Hooks.

(** [newConn]: every field at its zero value, the map empty. *)
Definition newConn : conn :=
  Conn ∅ EmptyString [] EmptyString 0 EmptyString 0.

(** The world of a fresh connection on the channel [events]. *)
Definition connect (events : chan) (clock : nat -> Time) (entropy : nat -> N) : World :=
  Build_World newConn events [] clock 0 entropy 0.

(** [New] of the proxy makes the channel with [make(chan proxy.Event, 256)]. *)
Definition New_events : chan := Chan 256 [].

(** ** The startup relay *)

Module startup.

(** Go error values: one that an operation of the environment returned
    (a read, a decode, an encode, a write), [fmt.Errorf] wrapping with
    [%w], and [errors.New]. *)
Inductive error :=
| errEnv (what : string)
| errWrap (context : string) (err : error)
| errNew (text : string).

(** What [ReceiveStartupMessage] can decode. *)
Inductive StartupPacket :=
| StartupMessage (ProtocolVersion : Z) (Parameters : list (string * string))
| SSLRequest
| GSSEncRequest
| CancelRequest (ProcessID SecretKey : Z).

(** The [encoder] interface of [conn.go]. *)
Class encoder (A : Type) := Encode : A -> error + string.

(** The writing side of a [net.Conn]: the buffers written so far, oldest
    first, how many more writes will succeed ([None]: all of them) and the
    error a failing write reports. *)
Record Sock := Build_Sock {
  sock_written : list string;
  sock_left : option nat;
  sock_err : error
}.

Definition Write (buf : string) (s : Sock) : option error * Sock :=
  match sock_left s with
  | Some O => (Some (sock_err s), s)
  | Some (S n) => (None, Build_Sock (sock_written s ++ [buf]) (Some n) (sock_err s))
  | None => (None, Build_Sock (sock_written s ++ [buf]) None (sock_err s))
  end.

(** The two sockets of a relay and what is going to arrive on them: the
    result of receiving the startup packet from the client, and the
    results of the successive [Receive] calls on the upstream. Nothing
    ([None], or the end of the list) means that no more data arrives and
    the read never returns. *)
Record Net := Build_Net {
  client_in : option (error + StartupPacket);
  upstream_in : list (error + pgproto.BackendMessage);
  clientConn : Sock;
  upstreamConn : Sock
}.

(** How a call ends: it returns ([None] is the nil error) or stays in a
    read for ever. *)
Inductive Outcome :=
| Returned (err : option error)
| Blocked.

Section Relay.

Context {encStartup : encoder StartupPacket}.
Context {encBackend : encoder pgproto.BackendMessage}.

Definition encodeAndWrite {A} `{encoder A} (dst : Sock) (msg : A)
  : option error * Sock :=
  match Encode msg with
  | inl err => (Some (errWrap "postgres: encode" err), dst)
  | inr buf =>
      match Write buf dst with
      | (Some err, dst') => (Some (errWrap "postgres: write" err), dst')
      | (None, dst') => (None, dst')
      end
  end.

(** The [for] loop of [relayStartup] over what the upstream delivers;
    the result carries what is left to deliver and the client socket. *)
Fixpoint relayAuth (incoming : list (error + pgproto.BackendMessage)) (client : Sock)
  : Outcome * list (error + pgproto.BackendMessage) * Sock :=
  match incoming with
  | [] => (Blocked, [], client)
  | inl err :: rest =>
      (Returned (Some (errWrap "postgres: receive auth" err)), rest, client)
  | inr msg :: rest =>
      match encodeAndWrite client msg with
      | (Some err, client') =>
          (Returned (Some (errWrap "postgres: send auth" err)), rest, client')
      | (None, client') =>
          match msg with
          | pgproto.MsgReadyForQuery _ => (Returned None, rest, client')
          | pgproto.MsgErrorResponse _ =>
              (Returned (Some (errNew "postgres: auth error from upstream")), rest, client')
          | _ => relayAuth rest client'
          end
      end
  end.

Definition relayStartup (n : Net) : Outcome * Net :=
  match client_in n with
  | None => (Blocked, n)
  | Some (inl err) =>
      (Returned (Some (errWrap "postgres: receive startup" err)),
       Build_Net None (upstream_in n) (clientConn n) (upstreamConn n))
  | Some (inr startupMsg) =>
      match encodeAndWrite (upstreamConn n) startupMsg with
      | (Some err, up') =>
          (Returned (Some (errWrap "postgres: send startup" err)),
           Build_Net None (upstream_in n) (clientConn n) up')
      | (None, up') =>
          let '(out, rest, client') := relayAuth (upstream_in n) (clientConn n) in
          (out, Build_Net None rest client' up')
      end
  end.

(** The messages after which the loop goes on. *)
Definition passes (msg : pgproto.BackendMessage) : bool :=
  match msg with
  | pgproto.MsgReadyForQuery _ | pgproto.MsgErrorResponse _ => false
  | _ => true
  end.

(** Between [before] and [after] the socket received the messages
    [msgs], each as its encoder writes it, in order, and nothing else. *)
Definition forwarded {A} `{encoder A} (msgs : list A) (before after : Sock) : Prop :=
  exists bufs,
    Forall2 (fun msg buf => Encode msg = inr buf) msgs bufs
    /\ sock_written after = sock_written before ++ bufs.

End Relay.

End startup.

(** ** Reference definitions for the properties *)

(** *** Decimal literals, as the description of [parseRowsAffected] reads *)

Module literal.

Definition minInt64 : Z := - 2 ^ 63.
Definition maxInt64 : Z := 2 ^ 63 - 1.

Fixpoint has_byte (sep : ascii) (s : string) : bool :=
  match s with
  | EmptyString => false
  | String c rest => Ascii.eqb c sep || has_byte sep rest
  end.

(** The part of [s] behind its last [sep]; all of [s] when there is none. *)
Fixpoint last_token (sep : ascii) (s : string) : string :=
  match s with
  | EmptyString => EmptyString
  | String c rest =>
      if has_byte sep rest then last_token sep rest
      else if Ascii.eqb c sep then rest
      else s
  end.

Fixpoint all_digits (s : string) : bool :=
  match s with
  | EmptyString => true
  | String c rest => strconv.is_digit c && all_digits rest
  end.

(** The longest prefix of decimal digits. *)
Fixpoint leading_digits (s : string) : string :=
  match s with
  | EmptyString => EmptyString
  | String c rest =>
      if strconv.is_digit c then String c (leading_digits rest) else EmptyString
  end.

(** The number that the digits [s] denote after the digits of [acc]. *)
Fixpoint digits_value (acc : Z) (s : string) : Z :=
  match s with
  | EmptyString => acc
  | String c rest => digits_value (10 * acc + (byte_code c - 48)) rest
  end.

(** The sign of a token and what follows it. *)
Definition sign_split (tok : string) : bool * string :=
  match tok with
  | String "+" rest => (false, rest)
  | String "-" rest => (true, rest)
  | _ => (false, tok)
  end.

(** The integer a token denotes: an optional sign followed by one or more
    decimal digits and nothing else. *)
Definition value (tok : string) : option Z :=
  let '(neg, body) := sign_split tok in
  match body with
  | EmptyString => None
  | _ =>
      if all_digits body
      then Some (if neg then - digits_value 0 body else digits_value 0 body)
      else None
  end.

(** The result described for [parseRowsAffected]: the value of the last
    token when it is a decimal integer of 64 bits, zero otherwise. *)
Definition described_rows (tag : string) : Z :=
  match value (last_token " " tag) with
  | Some z => if (minInt64 <=? z) && (z <=? maxInt64) then z else 0
  | None => 0
  end.

Definition saturate (z : Z) : Z := Z.max minInt64 (Z.min maxInt64 z).

(** The same with what the discarded range error leaves behind: a value
    outside the 64 bits comes back as the nearest bound, and so does a
    token whose leading digits already pass [2^64 - 1]. *)
Definition saturated_value (tok : string) : Z :=
  match value tok with
  | Some z => saturate z
  | None =>
      let '(neg, body) := sign_split tok in
      if strconv.maxUint64 <? digits_value 0 (leading_digits body)
      then (if neg then minInt64 else maxInt64)
      else 0
  end.

Definition saturated_rows (tag : string) : Z :=
  saturated_value (last_token " " tag).

End literal.

(** *** Text of plain ASCII bytes *)

(** [ToUpper] and [TrimSpace] as they act on strings of ASCII bytes, to run
    the hooks on concrete queries. *)
Module ascii_text.

Definition upper_byte (c : ascii) : ascii :=
  if (97 <=? byte_code c) && (byte_code c <=? 122)
  then byte_of_code (byte_code c - 32) else c.

Fixpoint ToUpper (s : string) : string :=
  match s with
  | EmptyString => EmptyString
  | String c rest => String (upper_byte c) (ToUpper rest)
  end.

(** Tab, line feed, vertical tab, form feed, carriage return, space. *)
Definition is_space (c : ascii) : bool :=
  ((9 <=? byte_code c) && (byte_code c <=? 13)) || (byte_code c =? 32).

Fixpoint TrimLeft (s : string) : string :=
  match s with
  | EmptyString => EmptyString
  | String c rest => if is_space c then TrimLeft rest else s
  end.

Fixpoint TrimRight (s : string) : string :=
  match s with
  | EmptyString => EmptyString
  | String c rest =>
      match TrimRight rest with
      | EmptyString => if is_space c then EmptyString else String c EmptyString
      | kept => String c kept
      end
  end.

Definition TrimSpace (s : string) : string := TrimRight (TrimLeft s).

(** A keyword: no byte of it is a space. *)
Fixpoint spaceless (kw : string) : bool :=
  match kw with
  | EmptyString => true
  | String c rest => negb (is_space c) && spaceless rest
  end.

Definition unicode : strings.Unicode :=
  {| strings.ToUpper := ToUpper; strings.TrimSpace := TrimSpace |}.

End ascii_text.

(** *** Reading a run of the relay *)

Section Reading.

Context `{strings.Unicode}.

(** The text in which [detectTx] looks for a keyword. *)
Definition keyword_text (query : string) : string :=
  strings.ToUpper (strings.TrimSpace query).

(** A BEGIN-class query. *)
Definition begins_tx (query : string) : bool :=
  strings.HasPrefix (keyword_text query) "BEGIN".

(** A COMMIT- or ROLLBACK-class query. *)
Definition ends_tx (query : string) : bool :=
  strings.HasPrefix (keyword_text query) "COMMIT"
  || strings.HasPrefix (keyword_text query) "ROLLBACK".

(** The transaction identifier that the transaction tracker prescribes
    after a query observed in the world [w]. *)
Definition tx_after (query : string) (w : World) : string :=
  if begins_tx query then uuid.String (uuid.NewRandom (w_entropy w (w_draws w)))
  else if ends_tx query then EmptyString
  else activeTxID (w_conn w).

(** The query text of an Execute as the extended-query tracker words it:
    the statement named by the last Bind when the map has that name, the
    last Parse otherwise. *)
Definition resolved_query (c : conn) : string :=
  match preparedStmts c !! lastBindStmt c with
  | Some stored => stored
  | None => lastParse c
  end.

(** The client messages that trigger an event, in the order decoded. *)
Fixpoint triggers (tr : list Action) : list pgproto.FrontendMessage :=
  match tr with
  | [] => []
  | FromClient (pgproto.MsgQuery m) :: rest => pgproto.MsgQuery m :: triggers rest
  | FromClient (pgproto.MsgExecute m) :: rest => pgproto.MsgExecute m :: triggers rest
  | _ :: rest => triggers rest
  end.

(** The event [ev] is the one of the trigger [msg]. *)
Definition event_of (msg : pgproto.FrontendMessage) (ev : proxy.Event) : Prop :=
  match msg with
  | pgproto.MsgQuery m =>
      proxy.Op ev = proxy.OpQuery /\ proxy.Query ev = pgproto.Query.String m
  | pgproto.MsgExecute _ => proxy.Op ev = proxy.OpExecute
  | _ => False
  end.

(** The most recent Parse and the most recent Bind of a run, if any. *)
Fixpoint last_Parse (tr : list Action) : option pgproto.Parse.t :=
  match tr with
  | [] => None
  | a :: rest =>
      match last_Parse rest, a with
      | Some m, _ => Some m
      | None, FromClient (pgproto.MsgParse m) => Some m
      | None, _ => None
      end
  end.

Fixpoint last_Bind (tr : list Action) : option pgproto.Bind.t :=
  match tr with
  | [] => None
  | a :: rest =>
      match last_Bind rest, a with
      | Some m, _ => Some m
      | None, FromClient (pgproto.MsgBind m) => Some m
      | None, _ => None
      end
  end.

(** The text of the most recent Parse that carried the name [name]. *)
Fixpoint last_named_Parse (name : string) (tr : list Action) : option string :=
  match tr with
  | [] => None
  | a :: rest =>
      match last_named_Parse name rest, a with
      | Some q, _ => Some q
      | None, FromClient (pgproto.MsgParse m) =>
          if decide (pgproto.Parse.Name m = name) then Some (pgproto.Parse.Query m) else None
      | None, _ => None
      end
  end.

(** What a non-blocking send leaves in the channel. *)
Definition try_send (ev : proxy.Event) (ch : chan) : chan :=
  if (length (chan_buf ch) <? chan_cap ch)%nat
  then Chan (chan_cap ch) (chan_buf ch ++ [ev])
  else ch.

(** The [conn] fields after the [nextID++] of an event on the query
    [query] observed in [w]. *)
Definition conn_after (query : string) (w : World) : conn :=
  set_nextID ((nextID (w_conn w) + 1) mod 2 ^ 64)
    (set_activeTxID (tx_after query w) (w_conn w)).

Definition draws_after (query : string) (w : World) : nat :=
  if begins_tx query then S (w_draws w) else w_draws w.

(** The event of a simple Query with the text [query] observed in [w]. *)
Definition query_event (query : string) (w : World) : proxy.Event :=
  proxy.Build (strconv.FormatUint ((nextID (w_conn w) + 1) mod 2 ^ 64))
    proxy.OpQuery query [] (w_clock w (w_ticks w)) (tx_after query w).

(** The event of an Execute whose text resolved to [query] in [w]. *)
Definition execute_event (query : string) (w : World) : proxy.Event :=
  proxy.Build (strconv.FormatUint ((nextID (w_conn w) + 1) mod 2 ^ 64))
    proxy.OpExecute query (lastBindArgs (w_conn w)) (w_clock w (w_ticks w))
    (tx_after query w).

(** The queries [qs], oldest first, leave a transaction open: one of them
    is BEGIN-class and no later one is COMMIT- or ROLLBACK-class. *)
Definition in_transaction (qs : list string) : Prop :=
  exists before b after,
    qs = before ++ b :: after
    /\ begins_tx b = true
    /\ Forall (fun q => ends_tx q = false) after.

(** The counter and the identifiers handed out so far: the counter is the
    number of events modulo [2^64], and the event at position [i] carries
    the decimal form of [i + 1] modulo [2^64]. *)
Definition events_numbered (w : World) : Prop :=
  nextID (w_conn w) = Z.of_nat (length (w_emitted w)) mod 2 ^ 64
  /\ forall (i : nat) (ev : proxy.Event),
       w_emitted w !! i = Some ev ->
       proxy.ID ev = strconv.FormatUint ((Z.of_nat i + 1) mod 2 ^ 64).

(** The transaction identifier is set exactly while the queries of the
    events so far leave a transaction open. *)
Definition tx_tracked (w : World) : Prop :=
  activeTxID (w_conn w) ≠ EmptyString
  <-> in_transaction (map proxy.Query (w_emitted w)).

(** No statement is stored under the empty name. *)
Definition unnamed_absent (w : World) : Prop :=
  preparedStmts (w_conn w) !! EmptyString = None.

(** What holds of the world along every run of a fresh connection. *)
Definition run_invariant (w : World) : Prop :=
  events_numbered w /\ tx_tracked w /\ unnamed_absent w.

(** [n] times the action [a]. *)
Definition many (n : N) (a : Action) : list Action :=
  N.iter n (cons a) [].

End Reading.

(** *** Concrete runs *)

Module scenario.

(** A fresh connection on the channel of [New], with a clock that stands
    still and a random source of zero bytes. *)
Definition fresh : World := connect New_events (fun _ => 0) (fun _ => 0%N).

Definition query (text : string) : Action :=
  FromClient (pgproto.MsgQuery (pgproto.Query.Build text)).

Definition parse (name text : string) : Action :=
  FromClient (pgproto.MsgParse (pgproto.Parse.Build name text [])).

Definition bind_ (stmt : string) (params : list (option string)) : Action :=
  FromClient (pgproto.MsgBind (pgproto.Bind.Build EmptyString stmt [] params [])).

Definition execute : pgproto.Execute.t := pgproto.Execute.Build EmptyString 0.

(** A transaction around one query. *)
Definition transaction : list Action :=
  [query "BEGIN"; query "SELECT 1"; query "COMMIT"].

(** A named statement prepared and bound inside a transaction. *)
Definition prepared : list Action :=
  [query "BEGIN"; parse "p1" "INSERT INTO t VALUES ($1)"; bind_ "p1" [Some "x"]].

(** A transaction left open. *)
Definition open_transaction : list Action :=
  [query "BEGIN"; query "SELECT 1"].

(** The world a run from [fresh] ends in, on ASCII text. *)
Definition after (tr : list Action) : World :=
  match run (H := ascii_text.unicode) tr fresh with
  | Ok _ w => w
  | _ => fresh
  end.

(** As many queries as the counter has values but one. *)
Definition full_round : list Action :=
  many 18446744073709551615 (query "SELECT 1").

(** Stand-in encoders to run the startup relay: the tag byte and the
    payload, without the length prefix of the wire format. *)
Definition encode_startup : startup.encoder startup.StartupPacket :=
  fun packet =>
    match packet with
    | startup.StartupMessage _ _ => inr "startup"
    | startup.SSLRequest => inr "ssl"
    | startup.GSSEncRequest => inr "gss"
    | startup.CancelRequest _ _ => inl (startup.errEnv "cancel request")
    end.

Definition encode_backend : startup.encoder pgproto.BackendMessage :=
  fun msg =>
    inr match msg with
        | pgproto.MsgCommandComplete m => String "C" (pgproto.CommandComplete.CommandTag m)
        | pgproto.MsgErrorResponse m => String "E" (pgproto.ErrorResponse.Message m)
        | pgproto.MsgReadyForQuery m => String "Z" (String (pgproto.ReadyForQuery.TxStatus m) EmptyString)
        | pgproto.MsgBackendOther tag payload => String tag payload
        end.

Definition open_sock : startup.Sock :=
  startup.Build_Sock [] None (startup.errEnv "write: broken pipe").

(** A handshake: the startup packet, then authentication ok, a parameter
    status and ready-for-query from the upstream, with more to follow. *)
Definition handshake : startup.Net :=
  startup.Build_Net
    (Some (inr (startup.StartupMessage 196608 [("user", "test")])))
    [inr (pgproto.MsgBackendOther "R" "ok");
     inr (pgproto.MsgBackendOther "S" "server_version");
     inr (pgproto.MsgReadyForQuery (pgproto.ReadyForQuery.Build "I"));
     inr (pgproto.MsgBackendOther "N" "notice")]
    open_sock open_sock.

(** A refused login: the upstream answers with an error. *)
Definition refusal : startup.Net :=
  startup.Build_Net
    (Some (inr (startup.StartupMessage 196608 [("user", "nobody")])))
    [inr (pgproto.MsgErrorResponse (pgproto.ErrorResponse.Build "FATAL" "28P01" "denied"))]
    open_sock open_sock.

End scenario.

(** *** More readings of a run *)

Section History.

Context `{strings.Unicode}.

(** The identifier the tracker holds after the events [evs]: that of the
    last one, none before the first. *)
Definition last_tx_id (evs : list proxy.Event) : string :=
  match last evs with
  | Some ev => proxy.TxID ev
  | None => EmptyString
  end.

(** Each event of [evs] is stamped from the one before it ([prev] before
    the first): a BEGIN-class query brings an identifier of 36 bytes, a
    COMMIT- or ROLLBACK-class query the empty one, any other query the
    identifier of the event before. *)
Fixpoint tx_linked (prev : string) (evs : list proxy.Event) : Prop :=
  match evs with
  | [] => True
  | ev :: rest =>
      (if begins_tx (proxy.Query ev) then String.length (proxy.TxID ev) = 36%nat
       else if ends_tx (proxy.Query ev) then proxy.TxID ev = EmptyString
       else proxy.TxID ev = prev)
      /\ tx_linked (proxy.TxID ev) rest
  end.

(** A query that neither opens nor closes a transaction. *)
Definition plain_query (ev : proxy.Event) : Prop :=
  begins_tx (proxy.Query ev) = false /\ ends_tx (proxy.Query ev) = false.

(** How many of the events come from a BEGIN-class query. *)
Fixpoint count_begins (evs : list proxy.Event) : nat :=
  match evs with
  | [] => O
  | ev :: rest =>
      if begins_tx (proxy.Query ev) then S (count_begins rest) else count_begins rest
  end.

(** The start time of the last Execute among the events; the zero time
    when there is none. *)
Definition last_execute_start (evs : list proxy.Event) : Time :=
  fold_left (fun t ev => match proxy.Op ev with
                         | proxy.OpExecute => proxy.StartTime ev
                         | _ => t
                         end) evs 0.

(** A run in which only the two pumps act: nobody receives from the
    channel and no other relay sends on it. *)
Definition pumps_only (tr : list Action) : Prop :=
  Forall (fun a => match a with
                   | FromClient _ | FromUpstream _ => True
                   | _ => False
                   end) tr.

End History.

(** ** The two pumps *)

Module pump.

(** Go error values as [isClosedErr] looks at them: the sentinel
    [io.EOF], an [errors.New] value, a value with a message of its own
    that unwraps to another error (what [fmt.Errorf] makes of [%w]), and
    a [*net.OpError] around its [Err]. Errors that unwrap to several
    errors at once do not occur in the relay. *)
Inductive error :=
| io_EOF
| errorString (text : string)
| wrapError (msg : string) (err : error)
| OpError (Op Net : string) (Source Addr : option string) (Err : error).

(** The [Error()] method. *)
Fixpoint Error (e : error) : string :=
  match e with
  | io_EOF => "EOF"
  | errorString text => text
  | wrapError msg _ => msg
  | OpError op net source addr err =>
      let s := op in
      let s := if decide (net = EmptyString) then s else s +:+ " " +:+ net in
      let s := match source with Some src => s +:+ " " +:+ src | None => s end in
      let s := match addr with
               | Some a => (match source with Some _ => s +:+ "->" | None => s +:+ " " end) +:+ a
               | None => s
               end in
      s +:+ ": " +:+ Error err
  end.

(** [fmt.Errorf(context + ": %w", err)]. *)
Definition Errorf (context : string) (err : error) : error :=
  wrapError (context +:+ ": " +:+ Error err) err.

(** [errors.Is(err, io.EOF)]: the sentinel somewhere along [Unwrap]. *)
Fixpoint Is_EOF (e : error) : bool :=
  match e with
  | io_EOF => true
  | errorString _ => false
  | wrapError _ err => Is_EOF err
  | OpError _ _ _ _ err => Is_EOF err
  end.

(** [errors.As(err, &netErr)] for [netErr *net.OpError]: the [Err] of the
    first [OpError] along [Unwrap]. *)
Fixpoint As_OpError (e : error) : option error :=
  match e with
  | io_EOF => None
  | errorString _ => None
  | wrapError _ err => As_OpError err
  | OpError _ _ _ _ err => Some err
  end.

(** [strings.Contains(s, substr)]. *)
Fixpoint Contains (s substr : string) : bool :=
  String.prefix substr s
  || match s with
     | EmptyString => false
     | String _ rest => Contains rest substr
     end.

Definition isClosedErr (err : error) : bool :=
  if Is_EOF err then true
  else match As_OpError err with
       | Some inner => String.eqb (Error inner) "use of closed network connection"
       | None => Contains (Error err) "closed"
       end.

(** The [encoder] interface, with errors that can be looked into. *)
Class encoder (A : Type) := Encode : A -> error + string.

(** The writing side of a [net.Conn], as in the startup relay. *)
Record Sock := Build_Sock {
  sock_written : list string;
  sock_left : option nat;
  sock_err : error
}.

Definition Write (buf : string) (s : Sock) : option error * Sock :=
  match sock_left s with
  | Some O => (Some (sock_err s), s)
  | Some (S n) => (None, Build_Sock (sock_written s ++ [buf]) (Some n) (sock_err s))
  | None => (None, Build_Sock (sock_written s ++ [buf]) None (sock_err s))
  end.

Definition encodeAndWrite {A} `{encoder A} (dst : Sock) (msg : A)
  : option error * Sock :=
  match Encode msg with
  | inl err => (Some (Errorf "postgres: encode" err), dst)
  | inr buf =>
      match Write buf dst with
      | (Some err, dst') => (Some (Errorf "postgres: write" err), dst')
      | (None, dst') => (None, dst')
      end
  end.

(** One round of a pump's loop as the surroundings decide it: the context
    is found cancelled at the head of the loop, or [Receive] returns a
    message or an error. A list of rounds that ends means that nothing
    more arrives and the read never returns. *)
Inductive Round (Msg : Type) :=
| Cancelled (err : error)
| Got (result : error + Msg).
Arguments Cancelled {Msg} err.
Arguments Got {Msg} result.

Inductive Outcome :=
| Returned (err : option error)
| Blocked.

(** The messages that the rounds deliver. *)
Fixpoint received {Msg} (rounds : list (Round Msg)) : list Msg :=
  match rounds with
  | [] => []
  | Got (inr msg) :: rest => msg :: received rest
  | _ :: rest => received rest
  end.

(** Between [before] and [after] the socket received the messages
    [msgs], each as its encoder writes it, in order, and nothing else. *)
Definition forwarded {A} `{encoder A} (msgs : list A) (before after : Sock) : Prop :=
  exists bufs,
    Forall2 (fun msg buf => Encode msg = inr buf) msgs bufs
    /\ sock_written after = sock_written before ++ bufs.

Section Pumps.

Context `{strings.Unicode}.
Context {encFrontend : encoder pgproto.FrontendMessage}.
Context {encBackend : encoder pgproto.BackendMessage}.

Local Open Scope relay_scope.

(** [relayClientToUpstream]; the result carries the rounds not yet
    played and the upstream socket. *)
Fixpoint relayClientToUpstream
    (rounds : list (Round pgproto.FrontendMessage)) (upstream : Sock)
  : M (Outcome * list (Round pgproto.FrontendMessage) * Sock) :=
  match rounds with
  | [] => ret (Blocked, [], upstream)
  | Cancelled err :: rest =>
      ret (Returned (Some (Errorf "postgres: client relay" err)), rest, upstream)
  | Got (inl err) :: rest =>
      if isClosedErr err then ret (Returned None, rest, upstream)
      else ret (Returned (Some (Errorf "postgres: receive from client" err)), rest, upstream)
  | Got (inr msg) :: rest =>
      captureClientMsg msg >>
      match encodeAndWrite upstream msg with
      | (Some err, upstream') =>
          if isClosedErr err then ret (Returned None, rest, upstream')
          else ret (Returned (Some (Errorf "postgres: send to upstream" err)), rest, upstream')
      | (None, upstream') => relayClientToUpstream rest upstream'
      end
  end.

(** [relayUpstreamToClient]. *)
Fixpoint relayUpstreamToClient
    (rounds : list (Round pgproto.BackendMessage)) (client : Sock)
  : M (Outcome * list (Round pgproto.BackendMessage) * Sock) :=
  match rounds with
  | [] => ret (Blocked, [], client)
  | Cancelled err :: rest =>
      ret (Returned (Some (Errorf "postgres: upstream relay" err)), rest, client)
  | Got (inl err) :: rest =>
      if isClosedErr err then ret (Returned None, rest, client)
      else ret (Returned (Some (Errorf "postgres: receive from upstream" err)), rest, client)
  | Got (inr msg) :: rest =>
      captureUpstreamMsg msg >>
      match encodeAndWrite client msg with
      | (Some err, client') =>
          if isClosedErr err then ret (Returned None, rest, client')
          else ret (Returned (Some (Errorf "postgres: send to client" err)), rest, client')
      | (None, client') => relayUpstreamToClient rest client'
      end
  end.

(** The shape the two pumps share: the hook, and the three contexts
    of their errors. *)
Fixpoint pumping {Msg} `{encoder Msg} (capture : Msg -> M unit)
    (on_cancel on_receive on_send : string)
    (rounds : list (Round Msg)) (dst : Sock)
  : M (Outcome * list (Round Msg) * Sock) :=
  match rounds with
  | [] => ret (Blocked, [], dst)
  | Cancelled err :: rest => ret (Returned (Some (Errorf on_cancel err)), rest, dst)
  | Got (inl err) :: rest =>
      if isClosedErr err then ret (Returned None, rest, dst)
      else ret (Returned (Some (Errorf on_receive err)), rest, dst)
  | Got (inr msg) :: rest =>
      capture msg >>
      match encodeAndWrite dst msg with
      | (Some err, dst') =>
          if isClosedErr err then ret (Returned None, rest, dst')
          else ret (Returned (Some (Errorf on_send err)), rest, dst')
      | (None, dst') => pumping capture on_cancel on_receive on_send rest dst'
      end
  end.

(** The hook run on each of [msgs] in turn. *)
Fixpoint captured {Msg} (capture : Msg -> M unit) (msgs : list Msg) : M unit :=
  match msgs with
  | [] => ret tt
  | msg :: rest => capture msg >> captured capture rest
  end.

End Pumps.

(** How a pump ended, given the messages [seen] that it received: they
    were all forwarded, in order, except that the last one was not when
    its forwarding is what failed. The pump returns nil only for an
    error that [isClosedErr] accepts, from the read or from the
    forwarding. *)
Definition ended {Msg} `{encoder Msg} (on_cancel on_receive on_send : string)
    (rounds : list (Round Msg)) (before : Sock) (seen : list Msg)
    (out : Outcome) (rest : list (Round Msg)) (after : Sock) : Prop :=
  match out with
  | Blocked =>
      rounds = map (fun msg => Got (inr msg)) seen /\ rest = []
      /\ forwarded seen before after
  | Returned None =>
      (exists cause,
          rounds = map (fun msg => Got (inr msg)) seen ++ Got (inl cause) :: rest
          /\ isClosedErr cause = true
          /\ forwarded seen before after)
      \/ (exists sent last err,
            seen = sent ++ [last]
            /\ rounds = map (fun msg => Got (inr msg)) seen ++ rest
            /\ forwarded sent before after
            /\ fst (encodeAndWrite after last) = Some err
            /\ isClosedErr err = true)
  | Returned (Some e) =>
      (exists cause,
          e = Errorf on_cancel cause
          /\ rounds = map (fun msg => Got (inr msg)) seen ++ Cancelled cause :: rest
          /\ forwarded seen before after)
      \/ (exists cause,
            e = Errorf on_receive cause
            /\ rounds = map (fun msg => Got (inr msg)) seen ++ Got (inl cause) :: rest
            /\ isClosedErr cause = false
            /\ forwarded seen before after)
      \/ (exists sent last err,
            e = Errorf on_send err
            /\ seen = sent ++ [last]
            /\ rounds = map (fun msg => Got (inr msg)) seen ++ rest
            /\ forwarded sent before after
            /\ fst (encodeAndWrite after last) = Some err
            /\ isClosedErr err = false)
  end.

End pump.

(** *** More concrete runs *)

Module session.

(** A fresh connection on a channel with room for two events. *)
Definition narrow : World := connect (Chan 2 []) (fun n => Z.of_nat n) (fun n => N.of_nat n).

(** The world a run from [narrow] ends in, on ASCII text. *)
Definition after (tr : list Action) : World :=
  match run (H := ascii_text.unicode) tr narrow with
  | Ok _ w => w
  | _ => narrow
  end.

(** Two transactions, one after the other. *)
Definition two_transactions : list Action :=
  [scenario.query "BEGIN"; scenario.query "SELECT 1"; scenario.query "COMMIT";
   scenario.query "begin"; scenario.query "SELECT 2"; scenario.query "ROLLBACK"].

(** Stand-in encoders for the pumps: a tag byte and the text. *)
Definition encode_frontend : pump.encoder pgproto.FrontendMessage :=
  fun msg =>
    inr match msg with
        | pgproto.MsgQuery m => String "Q" (pgproto.Query.String m)
        | pgproto.MsgParse m => String "P" (pgproto.Parse.Query m)
        | pgproto.MsgBind m => String "B" (pgproto.Bind.PreparedStatement m)
        | pgproto.MsgExecute m => String "E" (pgproto.Execute.Portal m)
        | pgproto.MsgFrontendOther tag payload => String tag payload
        end.

(** The error of a write on a connection that was closed under it. *)
Definition closed_write : pump.error :=
  pump.OpError "write" "tcp" (Some "127.0.0.1:5433") (Some "127.0.0.1:5432")
    (pump.errorString "use of closed network connection").

(** An upstream that takes one more write and is closed after it. *)
Definition closing : pump.Sock := pump.Build_Sock [] (Some 1%nat) closed_write.

(** Two queries from the client, then the end of its stream. *)
Definition two_queries : list (pump.Round pgproto.FrontendMessage) :=
  [pump.Got (inr (pgproto.MsgQuery (pgproto.Query.Build "SELECT 1")));
   pump.Got (inr (pgproto.MsgQuery (pgproto.Query.Build "SELECT 2")));
   pump.Got (inl pump.io_EOF)].

End session.

(** * Properties *)

(** ** [parseRowsAffected] and the decimal parser *)

Example parseRowsAffected_insert : parseRowsAffected "INSERT 0 5" = Some 5.
Proof. reflexivity. Qed.

Example parseRowsAffected_select : parseRowsAffected "SELECT 3" = Some 3.
Proof. reflexivity. Qed.

Example parseRowsAffected_update : parseRowsAffected "UPDATE 10" = Some 10.
Proof. reflexivity. Qed.

Example parseRowsAffected_create : parseRowsAffected "CREATE TABLE" = Some 0.
Proof. reflexivity. Qed.

Example parseRowsAffected_empty : parseRowsAffected "" = Some 0.
Proof. reflexivity. Qed.

Example parseRowsAffected_negative : parseRowsAffected "MOVE -7" = Some (-7).
Proof. reflexivity. Qed.

Example parseRowsAffected_early_exit :
  parseRowsAffected "X 99999999999999999999x" = Some 9223372036854775807.
Proof. vm_compute. reflexivity. Qed.

Example saturated_rows_early_exit :
  literal.saturated_rows "X 99999999999999999999x" = 9223372036854775807.
Proof. vm_compute. reflexivity. Qed.

Example FormatUint_max :
  strconv.FormatUint 18446744073709551615 = "18446744073709551615".
Proof. vm_compute. reflexivity. Qed.

Section SplitFacts.

Variable sep : ascii.

Lemma Split_nonempty (s : string) : strings.Split s sep ≠ [].
Proof.
  destruct s as [|c rest]; simpl; [done|].
  destruct (Ascii.eqb c sep); [done|].
  destruct (strings.Split rest sep); done.
Qed.

Lemma Split_no_sep (s : string) :
  literal.has_byte sep s = false -> strings.Split s sep = [s].
Proof.
  induction s as [|c rest IH]; simpl; [done|].
  destruct (Ascii.eqb c sep); simpl; [done|].
  intros Hr. rewrite (IH Hr). done.
Qed.

Lemma Split_with_sep (s : string) :
  literal.has_byte sep s = true ->
  exists cur next more, strings.Split s sep = cur :: next :: more.
Proof.
  induction s as [|c rest IH]; simpl; [done|].
  destruct (Ascii.eqb c sep); simpl.
  - intros _. destruct (strings.Split rest sep) as [|x xs] eqn:E.
    + by apply Split_nonempty in E.
    + eauto.
  - intros Hr. destruct (IH Hr) as (cur & next & more & ->). eauto.
Qed.

Lemma last_token_no_sep (s : string) :
  literal.has_byte sep s = false -> literal.last_token sep s = s.
Proof.
  destruct s as [|c rest]; simpl; [done|].
  destruct (Ascii.eqb c sep); simpl; [done|].
  by intros ->.
Qed.

(** The last element of the split is the text behind the last separator. *)
Lemma Split_last (s : string) :
  last (strings.Split s sep) = Some (literal.last_token sep s).
Proof.
  induction s as [|c rest IH]; simpl; [done|].
  destruct (literal.has_byte sep rest) eqn:Hr.
  - destruct (Split_with_sep rest Hr) as (cur & next & more & E).
    rewrite E in IH. rewrite E.
    destruct (Ascii.eqb c sep); exact IH.
  - rewrite (Split_no_sep rest Hr).
    destruct (Ascii.eqb c sep); done.
Qed.

End SplitFacts.

Section ParseFacts.

Import strconv literal.

Lemma is_digit_range (c : ascii) :
  is_digit c = true -> 0 <= byte_code c - 48 <= 9.
Proof. unfold is_digit. lia. Qed.

Lemma leading_digits_value_ge (s : string) (a : Z) :
  0 <= a -> a <= digits_value a (leading_digits s).
Proof.
  revert a. induction s as [|c rest IH]; intros a Ha; simpl; [lia|].
  destruct (is_digit c) eqn:Hc; simpl; [|lia].
  apply is_digit_range in Hc.
  etrans; [|apply IH]; lia.
Qed.

Lemma all_digits_leading (s : string) :
  all_digits s = true -> leading_digits s = s.
Proof.
  induction s as [|c rest IH]; simpl; [done|].
  destruct (is_digit c); simpl; [|done].
  by intros ->%IH.
Qed.

(** The digit loop against the unbounded reading of the digits: a range
    error as soon as the digits read pass [2^64 - 1], a syntax error at
    the first other byte, the value otherwise. *)
Lemma parseUintLoop_decimal (s : string) (n : Z) :
  0 <= n <= maxUint64 ->
  parseUintLoop 10 (maxUint64 / 10 + 1) maxUint64 s n =
    let v := digits_value n (leading_digits s) in
    if maxUint64 <? v then (maxUint64, Some ErrRange)
    else if all_digits s then (v, None)
    else (0, Some ErrSyntax).
Proof.
  revert n. induction s as [|c rest IH]; intros n Hn; cbn zeta.
  - simpl. destruct (Z.ltb_spec maxUint64 n); [lia|done].
  - cbn [parseUintLoop leading_digits all_digits].
    destruct (is_digit c) eqn:Hc.
    + pose proof (is_digit_range c Hc) as Hd.
      cbn [digits_value andb].
      pose proof (leading_digits_value_ge rest (10 * n + (byte_code c - 48))) as Hge.
      change (maxUint64 / 10 + 1) with 1844674407370955162 in *.
      unfold maxUint64 in *.
      destruct (Z.leb_spec 10 (byte_code c - 48)); [lia|].
      destruct (Z.leb_spec 1844674407370955162 n).
      * destruct (Z.ltb_spec (2 ^ 64 - 1)
                    (digits_value (10 * n + (byte_code c - 48)) (leading_digits rest)));
          [done|lia].
      * cbn zeta.
        rewrite (Z.mod_small (n * 10)) by lia.
        destruct (Z.le_gt_cases (2 ^ 64) (n * 10 + (byte_code c - 48))) as [Hov|Hok].
        -- assert ((n * 10 + (byte_code c - 48)) mod 2 ^ 64
                   = n * 10 + (byte_code c - 48) - 2 ^ 64) as ->.
           { symmetry. apply (Z.mod_unique_pos _ _ 1); lia. }
           destruct (Z.ltb_spec (n * 10 + (byte_code c - 48) - 2 ^ 64) (n * 10)); [|lia].
           cbn [orb].
           destruct (Z.ltb_spec (2 ^ 64 - 1)
                       (digits_value (10 * n + (byte_code c - 48)) (leading_digits rest)));
             [done|lia].
        -- rewrite (Z.mod_small (n * 10 + (byte_code c - 48))) by lia.
           destruct (Z.ltb_spec (n * 10 + (byte_code c - 48)) (n * 10)); [lia|].
           destruct (Z.ltb_spec (2 ^ 64 - 1) (n * 10 + (byte_code c - 48))); [lia|].
           cbn [orb].
           rewrite IH by lia.
           cbn zeta. by replace (n * 10) with (10 * n) by lia.
    + cbn [andb digits_value].
      destruct (Z.ltb_spec maxUint64 n); [lia|].
      destruct ((97 <=? lower c) && (lower c <=? 122)) eqn:Hl; [|done].
      destruct (Z.leb_spec 10 (lower c - 97 + 10)); [done|lia].
Qed.

Lemma ParseUint_decimal (s : string) :
  ParseUint s 10 64 =
    match s with
    | EmptyString => (0, Some ErrSyntax)
    | _ =>
        let v := digits_value 0 (leading_digits s) in
        if maxUint64 <? v then (maxUint64, Some ErrRange)
        else if all_digits s then (v, None)
        else (0, Some ErrSyntax)
    end.
Proof.
  destruct s as [|c rest]; [done|].
  unfold ParseUint.
  change ((2 ^ 64 - 1) mod 2 ^ 64) with maxUint64.
  apply parseUintLoop_decimal. unfold maxUint64. lia.
Qed.

End ParseFacts.

Section RowsAffected.

Import strconv literal.

Lemma sign_split_eqb (c : ascii) (rest : string) :
  sign_split (String c rest) =
    if Ascii.eqb c "+" then (false, rest)
    else if Ascii.eqb c "-" then (true, rest)
    else (false, String c rest).
Proof. destruct c as [[] [] [] [] [] [] [] []]; reflexivity. Qed.

Lemma ParseInt_signed (neg : bool) (body : string) :
  fst (match ParseUint body 10 64 with
       | (_, Some ErrSyntax) => (0, Some ErrSyntax)
       | (un, _) =>
           let cutoff := 2 ^ (64 - 1) in
           if negb neg && (cutoff <=? un) then (cutoff - 1, Some ErrRange)
           else if neg && (cutoff <? un) then (- cutoff, Some ErrRange)
           else ((if neg then - un else un), None)
       end) =
  match
    match body with
    | EmptyString => None
    | _ => if all_digits body
           then Some (if neg then - digits_value 0 body else digits_value 0 body)
           else None
    end
  with
  | Some z => saturate z
  | None =>
      if maxUint64 <? digits_value 0 (leading_digits body)
      then (if neg then minInt64 else maxInt64)
      else 0
  end.
Proof.
  rewrite ParseUint_decimal.
  destruct body as [|c rest]; [done|].
  cbv beta iota zeta.
  generalize (String c rest). clear c rest. intros body.
  pose proof (leading_digits_value_ge body 0 ltac:(lia)) as Hge.
  pose proof (all_digits_leading body) as Hall.
  change (2 ^ (64 - 1)) with 9223372036854775808.
  unfold saturate, minInt64, maxInt64, maxUint64 in *.
  destruct (all_digits body) eqn:Had.
  - rewrite Hall in Hge |- * by done. clear Hall.
    destruct (Z.ltb_spec (2 ^ 64 - 1) (digits_value 0 body)).
    + destruct neg; cbn [negb andb fst].
      * destruct (Z.ltb_spec 9223372036854775808 (2 ^ 64 - 1)); cbn [fst]; lia.
      * destruct (Z.leb_spec 9223372036854775808 (2 ^ 64 - 1)); cbn [fst]; lia.
    + destruct neg; cbn [negb andb fst].
      * destruct (Z.ltb_spec 9223372036854775808 (digits_value 0 body)); cbn [fst]; lia.
      * destruct (Z.leb_spec 9223372036854775808 (digits_value 0 body)); cbn [fst]; lia.
  - destruct (Z.ltb_spec (2 ^ 64 - 1) (digits_value 0 (leading_digits body))).
    + destruct neg; cbn [negb andb fst].
      * destruct (Z.ltb_spec 9223372036854775808 (2 ^ 64 - 1)); cbn [fst]; lia.
      * destruct (Z.leb_spec 9223372036854775808 (2 ^ 64 - 1)); cbn [fst]; lia.
    + done.
Qed.

(** What [ParseInt] leaves in its first result for base 10 and 64 bits,
    whatever the error next to it. *)
Lemma ParseInt_decimal (tok : string) :
  fst (ParseInt tok 10 64) = saturated_value tok.
Proof.
  unfold saturated_value, value.
  destruct tok as [|c rest]; [done|].
  unfold ParseInt. rewrite sign_split_eqb.
  destruct (Ascii.eqb c "+"); [exact (ParseInt_signed false rest)|].
  destruct (Ascii.eqb c "-");
    [exact (ParseInt_signed true rest)|exact (ParseInt_signed false (String c rest))].
Qed.

(** A value of 64 bits is left alone by the saturation. *)
Lemma saturate_in_range (z : Z) :
  minInt64 <= z <= maxInt64 -> saturate z = z.
Proof. unfold saturate. lia. Qed.

(** Away from the saturation the two readings give the same number. *)
Lemma saturated_rows_described (tag : string) :
  let tok := last_token " " tag in
  match value tok with
  | Some z => minInt64 <= z <= maxInt64
  | None => digits_value 0 (leading_digits (snd (sign_split tok))) <= maxUint64
  end ->
  saturated_rows tag = described_rows tag.
Proof.
  unfold saturated_rows, saturated_value, described_rows. cbn zeta.
  destruct (value (last_token " " tag)) as [z|].
  - intros Hz. rewrite saturate_in_range by done.
    destruct (Z.leb_spec minInt64 z), (Z.leb_spec z maxInt64); simpl; lia.
  - destruct (sign_split (last_token " " tag)) as [neg body]. simpl.
    intros Hv. destruct (Z.ltb_spec maxUint64 (digits_value 0 (leading_digits body))); lia.
Qed.

(** The index of [parseRowsAffected] is always in range, and what it
    parses is the text behind the last space. *)
Lemma parseRowsAffected_last_token (tag : string) :
  parseRowsAffected tag = Some (fst (ParseInt (last_token " " tag) 10 64)).
Proof.
  unfold parseRowsAffected. cbn zeta.
  pose proof (Split_nonempty " " tag) as Hne.
  pose proof (Split_last " " tag) as Hlast.
  rewrite last_lookup in Hlast.
  destruct (strings.Split tag " ") as [|p ps] eqn:E; [done|].
  replace (length (p :: ps) - 1)%nat with (Init.Nat.pred (length (p :: ps))) by (simpl; lia).
  rewrite Hlast. reflexivity.
Qed.

(** C10, as amended. For every tag [parseRowsAffected] returns (it never
    panics on its index), and the number returned is the value of the
    text behind the last space when that text is an optional sign and
    decimal digits, brought to the nearest bound of the signed 64 bits
    when it lies outside them; for any other text it is zero, unless the
    leading digits of the text already pass [2^64 - 1], which gives the
    bound of the sign as well. In particular it is the value itself for
    every token that denotes a signed 64-bit integer. *)
Theorem parseRowsAffected_saturated (tag : string) :
  parseRowsAffected tag = Some (saturated_rows tag)
  /\ match value (last_token " " tag) with
     | Some z =>
         if (minInt64 <=? z) && (z <=? maxInt64)
         then parseRowsAffected tag = Some z
         else parseRowsAffected tag = Some (if z <? 0 then minInt64 else maxInt64)
     | None =>
         parseRowsAffected tag = Some 0
         \/ (maxUint64 < digits_value 0 (leading_digits (snd (sign_split (last_token " " tag))))
             /\ parseRowsAffected tag
                = Some (if fst (sign_split (last_token " " tag)) then minInt64 else maxInt64))
     end.
Proof.
  rewrite parseRowsAffected_last_token, ParseInt_decimal.
  split; [reflexivity|].
  unfold saturated_value.
  destruct (value (last_token " " tag)) as [z|].
  - unfold saturate, minInt64, maxInt64.
    destruct (Z.leb_spec (- 2 ^ 63) z), (Z.leb_spec z (2 ^ 63 - 1)); cbn [andb].
    + f_equal. lia.
    + destruct (Z.ltb_spec z 0); f_equal; lia.
    + destruct (Z.ltb_spec z 0); f_equal; lia.
    + lia.
  - destruct (sign_split (last_token " " tag)) as [neg body]. cbn [fst snd].
    destruct (Z.ltb_spec maxUint64 (digits_value 0 (leading_digits body))).
    + right. done.
    + by left.
Qed.

(** C10, as stated, fails: the last token of this tag is one more than
    the largest signed 64-bit integer, so it does not parse as one, and
    the function returns that largest integer instead of zero. *)
Lemma parseRowsAffected_not_described :
  value (last_token " " "SELECT 9223372036854775808") = Some 9223372036854775808
  /\ snd (ParseInt "9223372036854775808" 10 64) = Some ErrRange
  /\ described_rows "SELECT 9223372036854775808" = 0
  /\ parseRowsAffected "SELECT 9223372036854775808" = Some 9223372036854775807.
Proof. vm_compute. done. Qed.

End RowsAffected.

(** ** Decimal identifiers *)

Section FormatFacts.

Import strconv literal.

Lemma byte_code_digit (d : Z) :
  0 <= d <= 9 -> byte_code (byte_of_code (48 + d)) = 48 + d /\ is_digit (byte_of_code (48 + d)) = true.
Proof.
  intros Hd.
  assert (d = 0 \/ d = 1 \/ d = 2 \/ d = 3 \/ d = 4 \/ d = 5 \/ d = 6 \/ d = 7 \/ d = 8 \/ d = 9)
    as Hcases by lia.
  repeat (destruct Hcases as [->|Hcases]; [by vm_compute|]).
  subst d. by vm_compute.
Qed.

Lemma formatBits_digits (fuel : nat) (u : Z) (acc : string) :
  0 <= u < 10 ^ Z.of_nat fuel ->
  all_digits acc = true ->
  all_digits (formatBits fuel u acc) = true
  /\ digits_value 0 (formatBits fuel u acc) = digits_value u acc.
Proof.
  revert u acc. induction fuel as [|fuel IH]; intros u acc Hu Hacc.
  - simpl in *. assert (u = 0) as -> by lia. done.
  - cbn [formatBits].
    rewrite Nat2Z.inj_succ, Z.pow_succ_r in Hu by lia.
    destruct (Z.ltb_spec u 10) as [Hlt|Hge].
    + destruct (byte_code_digit u ltac:(lia)) as [Hc Hd].
      cbn [all_digits digits_value]. rewrite Hc, Hd, Hacc.
      split; [done|]. f_equal. lia.
    + pose proof (Z.mod_pos_bound u 10 ltac:(lia)) as Hm.
      destruct (byte_code_digit (u mod 10) ltac:(lia)) as [Hc Hd].
      destruct (IH (u / 10) (String (byte_of_code (48 + u mod 10)) acc)) as [Ha Hv].
      * split; [apply Z.div_pos; lia|]. apply Z.div_lt_upper_bound; lia.
      * cbn [all_digits]. by rewrite Hd, Hacc.
      * split; [done|]. rewrite Hv. cbn [digits_value]. rewrite Hc.
        f_equal. pose proof (Z.div_mod u 10 ltac:(lia)). lia.
Qed.

Lemma formatBits_nonempty (fuel : nat) (u : Z) (acc : string) :
  formatBits (S fuel) u acc ≠ EmptyString.
Proof.
  revert u acc. induction fuel as [|fuel IH]; intros u acc.
  - cbn [formatBits]. destruct (u <? 10); done.
  - change (formatBits (S (S fuel)) u acc)
      with (if u <? 10 then String (byte_of_code (48 + u)) acc
            else formatBits (S fuel) (u / 10) (String (byte_of_code (48 + u mod 10)) acc)).
    destruct (u <? 10); [done|apply IH].
Qed.

(** Reading back what [FormatUint] wrote gives the number, without error. *)
Lemma ParseUint_FormatUint (n : Z) :
  0 <= n < 2 ^ 64 -> ParseUint (FormatUint n) 10 64 = (n, None).
Proof.
  intros Hn. rewrite ParseUint_decimal. unfold FormatUint.
  destruct (formatBits_digits 20 n EmptyString) as [Ha Hv]; [simpl; lia|done|].
  pose proof (formatBits_nonempty 19 n EmptyString) as Hne.
  destruct (formatBits 20 n EmptyString) as [|c rest] eqn:E; [done|].
  cbv zeta. rewrite (all_digits_leading _ Ha), Ha, Hv. cbn [digits_value].
  unfold maxUint64. destruct (Z.ltb_spec (2 ^ 64 - 1) n); [lia|done].
Qed.

Lemma FormatUint_inj (n m : Z) :
  0 <= n < 2 ^ 64 -> 0 <= m < 2 ^ 64 -> FormatUint n = FormatUint m -> n = m.
Proof.
  intros Hn Hm E. apply ParseUint_FormatUint in Hn, Hm.
  rewrite E in Hn. congruence.
Qed.

End FormatFacts.

(** ** One hook at a time *)

Section HookFacts.

Context `{strings.Unicode}.

Local Open Scope relay_scope.

Lemma begins_not_ends (query : string) :
  begins_tx query = true -> ends_tx query = false.
Proof.
  unfold begins_tx, ends_tx, strings.HasPrefix.
  destruct (keyword_text query) as [|c rest]; [done|].
  cbn [String.prefix].
  destruct (ascii_dec "B" c) as [<-|]; [|done].
  intros _. done.
Qed.

Lemma detectTx_eq (query : string) (w : World) :
  detectTx query w =
    Ok tt (Build_World (set_activeTxID (tx_after query w) (w_conn w)) (w_events w)
             (w_emitted w) (w_clock w) (w_ticks w) (w_entropy w) (draws_after query w)).
Proof.
  unfold detectTx, tx_after, draws_after, begins_tx, ends_tx, keyword_text.
  destruct w as [[] ? ? ? ? ? ?].
  destruct (strings.HasPrefix _ "BEGIN"); [reflexivity|].
  destruct (strings.HasPrefix _ "COMMIT" || strings.HasPrefix _ "ROLLBACK"); reflexivity.
Qed.

Lemma emitEvent_eq (ev : proxy.Event) (w : World) :
  emitEvent ev w =
    Ok tt (Build_World (w_conn w) (try_send ev (w_events w)) (w_emitted w ++ [ev])
             (w_clock w) (w_ticks w) (w_entropy w) (w_draws w)).
Proof.
  unfold emitEvent, bind, chansend, try_send, ret. destruct w as [? [cap buf] ? ? ? ? ?].
  cbv beta iota delta [w_events w_emitted with_emitted chan_buf chan_cap].
  destruct (length buf <? cap)%nat; reflexivity.
Qed.

Lemma handleSimpleQuery_eq (m : pgproto.Query.t) (w : World) :
  let q := pgproto.Query.String m in
  handleSimpleQuery m w =
    Ok tt (Build_World (conn_after q w) (try_send (query_event q w) (w_events w))
             (w_emitted w ++ [query_event q w])
             (w_clock w) (S (w_ticks w)) (w_entropy w) (draws_after q w)).
Proof.
  cbn zeta. unfold handleSimpleQuery. cbn zeta.
  unfold bind at 1. rewrite detectTx_eq.
  unfold bind, generateID, modifyConn, getConn, time_Now, ret, bind.
  rewrite emitEvent_eq. reflexivity.
Qed.

(** The text [handleExecute] settles on. *)
Lemma handleExecute_eq (w : World) :
  let c := w_conn w in
  let q := if decide (lastBindStmt c ≠ EmptyString) then resolved_query c else lastParse c in
  handleExecute w =
    Ok tt (Build_World
             (set_executeStart (w_clock w (w_ticks w)) (conn_after q w))
             (try_send (execute_event q w) (w_events w))
             (w_emitted w ++ [execute_event q w])
             (w_clock w) (S (w_ticks w)) (w_entropy w) (draws_after q w)).
Proof.
  cbn zeta. unfold handleExecute. unfold bind at 1, getConn at 1. cbn zeta.
  unfold bind at 1. rewrite detectTx_eq.
  unfold bind, generateID, modifyConn, getConn, time_Now, ret, bind.
  rewrite emitEvent_eq. reflexivity.
Qed.

Lemma handleParse_eq (m : pgproto.Parse.t) (w : World) :
  handleParse m w =
    Ok tt (with_conn
             (if decide (pgproto.Parse.Name m ≠ EmptyString)
              then set_preparedStmts
                     (<[pgproto.Parse.Name m := pgproto.Parse.Query m]>
                        (preparedStmts (w_conn w)))
                     (set_lastParse (pgproto.Parse.Query m) (w_conn w))
              else set_lastParse (pgproto.Parse.Query m) (w_conn w)) w).
Proof.
  unfold handleParse, bind, modifyConn, ret.
  destruct w as [[] ? ? ? ? ? ?].
  destruct (decide (pgproto.Parse.Name m ≠ EmptyString)); reflexivity.
Qed.

(** The loop fills the fresh slice with the parameters as strings. *)
Lemma fillArgs_map (params : list (option string)) (done_ : list string) :
  fillArgs (length done_) params (done_ ++ replicate (length params) EmptyString)
  = done_ ++ map string_of_bytes params.
Proof.
  revert done_. induction params as [|p rest IH]; intros done_; [done|].
  cbn [fillArgs length replicate map].
  replace (length done_) with (length done_ + 0)%nat at 2 by lia.
  rewrite insert_app_r. cbn [insert list_insert].
  specialize (IH (done_ ++ [string_of_bytes p])).
  rewrite length_app, <- !app_assoc in IH. cbn [length app] in IH.
  replace (length done_ + 1)%nat with (S (length done_)) in IH by lia.
  exact IH.
Qed.

Lemma handleBind_eq (m : pgproto.Bind.t) (w : World) :
  handleBind m w =
    Ok tt (with_conn
             (set_lastBindArgs (map string_of_bytes (pgproto.Bind.Parameters m))
                (set_lastBindStmt (pgproto.Bind.PreparedStatement m) (w_conn w))) w).
Proof.
  unfold handleBind, bind, modifyConn.
  destruct w as [[] ? ? ? ? ? ?].
  cbv beta iota delta [with_conn w_conn set_lastBindArgs set_lastBindStmt lastBindArgs
    preparedStmts lastParse lastBindStmt executeStart activeTxID nextID
    w_events w_emitted w_clock w_ticks w_entropy w_draws].
  pose proof (fillArgs_map (pgproto.Bind.Parameters m) []) as E.
  cbn [length app] in E. rewrite E. reflexivity.
Qed.

Lemma handleCommandComplete_eq (m : pgproto.CommandComplete.t) (w : World) :
  handleCommandComplete m w = Ok tt w.
Proof.
  unfold handleCommandComplete. by rewrite parseRowsAffected_last_token.
Qed.

Lemma captureUpstreamMsg_eq (msg : pgproto.BackendMessage) (w : World) :
  captureUpstreamMsg msg w = Ok tt w.
Proof.
  destruct msg; try reflexivity. apply handleCommandComplete_eq.
Qed.

Lemma append_nonempty (a : string) (c : ascii) (b : string) :
  a +:+ String c b ≠ EmptyString.
Proof. by destruct a. Qed.

Lemma uuid_String_nonempty (u : uuid.UUID) : uuid.String u ≠ EmptyString.
Proof. unfold uuid.String. apply append_nonempty. Qed.

Lemma uuid_String_length (r : N) :
  String.length (uuid.String (uuid.NewRandom r)) = 36%nat.
Proof. reflexivity. Qed.

(** Every step of a run returns. *)
Lemma step_returns (a : Action) (w : World) : exists w', step a w = Ok tt w'.
Proof.
  destruct a as [msg|msg| |ev]; cbn [step].
  - destruct msg; cbn [captureClientMsg].
    + rewrite handleSimpleQuery_eq. eauto.
    + rewrite handleParse_eq. eauto.
    + rewrite handleBind_eq. eauto.
    + rewrite handleExecute_eq. eauto.
    + eexists. reflexivity.
  - rewrite captureUpstreamMsg_eq. eauto.
  - eauto.
  - unfold bind, chansend, ret.
    destruct (length (chan_buf (w_events w)) <? chan_cap (w_events w))%nat; eauto.
Qed.

Lemma run_app (tr1 tr2 : list Action) (w : World) :
  run (tr1 ++ tr2) w = (run tr1 >> run tr2) w.
Proof.
  revert w. induction tr1 as [|a tr1 IH]; intros w; [done|].
  cbn [run app]. unfold bind.
  destruct (step a w) as [[] w'| |]; [|done..].
  rewrite IH. reflexivity.
Qed.

Lemma run_returns (tr : list Action) (w : World) : exists w', run tr w = Ok tt w'.
Proof.
  revert w. induction tr as [|a tr IH]; intros w; [by eexists|].
  cbn [run]. unfold bind. destruct (step_returns a w) as [w' ->]. apply IH.
Qed.

Lemma run_cons (a : Action) (tr : list Action) (w w2 : World) :
  run (a :: tr) w = Ok tt w2 <-> exists w1, step a w = Ok tt w1 /\ run tr w1 = Ok tt w2.
Proof.
  cbn [run]. unfold bind. split.
  - destruct (step a w) as [[] w1| |]; [eauto|done..].
  - intros (w1 & -> & ?). done.
Qed.

Lemma run_snoc (tr : list Action) (a : Action) (w w2 : World) :
  run (tr ++ [a]) w = Ok tt w2 <-> exists w1, run tr w = Ok tt w1 /\ step a w1 = Ok tt w2.
Proof.
  rewrite run_app. unfold bind at 1. split.
  - destruct (run tr w) as [[] w1| |]; [|done..].
    intros Hs. exists w1. split; [done|].
    cbn [run] in Hs. unfold bind, ret in Hs.
    destruct (step a w1) as [[] ?| |]; done.
  - intros (w1 & -> & Hs). cbn [run]. unfold bind, ret. by rewrite Hs.
Qed.

End HookFacts.

(** ** Invariants of a run *)

Section RunFacts.

Context `{strings.Unicode}.

Local Open Scope relay_scope.

(** A step either hands one event to [emitEvent], numbered by the
    incremented counter and stamped after the transaction detection on
    its query, or leaves the counter, the identifier and the history as
    they are. *)
Lemma step_effect (a : Action) (w w' : World) :
  step a w = Ok tt w' ->
  (exists ev,
      w_emitted w' = w_emitted w ++ [ev]
      /\ proxy.ID ev = strconv.FormatUint ((nextID (w_conn w) + 1) mod 2 ^ 64)
      /\ nextID (w_conn w') = (nextID (w_conn w) + 1) mod 2 ^ 64
      /\ activeTxID (w_conn w') = tx_after (proxy.Query ev) w
      /\ proxy.TxID ev = tx_after (proxy.Query ev) w
      /\ preparedStmts (w_conn w') = preparedStmts (w_conn w)
      /\ exists msg, a = FromClient msg /\ triggers [a] = [msg] /\ event_of msg ev)
  \/ (w_emitted w' = w_emitted w
      /\ nextID (w_conn w') = nextID (w_conn w)
      /\ activeTxID (w_conn w') = activeTxID (w_conn w)
      /\ preparedStmts (w_conn w') !! EmptyString = preparedStmts (w_conn w) !! EmptyString
      /\ triggers [a] = []).
Proof.
  destruct a as [msg|msg| |ev]; cbn [step].
  - destruct msg as [m|m|m|m|]; cbn [captureClientMsg].
    + rewrite handleSimpleQuery_eq. intros [= <-]. left.
      eexists. cbn. repeat split. by exists (pgproto.MsgQuery m).
    + rewrite handleParse_eq. intros [= <-]. right.
      destruct w as [[] ? ? ? ? ? ?]. cbn.
      destruct (decide (pgproto.Parse.Name m ≠ EmptyString)); cbn; repeat split.
      by rewrite lookup_insert_ne.
    + rewrite handleBind_eq. intros [= <-]. right.
      destruct w as [[] ? ? ? ? ? ?]. cbn. done.
    + rewrite handleExecute_eq. intros [= <-]. left.
      eexists. cbn. repeat split. by exists (pgproto.MsgExecute m).
    + intros [= <-]. right. done.
  - rewrite captureUpstreamMsg_eq. intros [= <-]. right. done.
  - intros [= <-]. right. done.
  - unfold bind, chansend, ret.
    destruct (length (chan_buf (w_events w)) <? chan_cap (w_events w))%nat;
      intros [= <-]; right; done.
Qed.

Lemma in_transaction_snoc (qs : list string) (q : string) :
  in_transaction (qs ++ [q])
  <-> begins_tx q = true \/ (in_transaction qs /\ ends_tx q = false).
Proof.
  split.
  - intros (before & b & after & E & Hb & Hafter).
    destruct after as [|x after _] using rev_ind.
    + apply app_inj_tail in E as [_ ->]. by left.
    + right. rewrite app_comm_cons, app_assoc in E.
      apply app_inj_tail in E as [-> ->].
      apply Forall_app in Hafter as [Hafter Hq].
      split; [by exists before, b, after|]. by inversion Hq.
  - intros [Hb|[(before & b & after & -> & Hb & Hafter) Hq]].
    + by exists qs, q, [].
    + exists before, b, (after ++ [q]). rewrite <- app_assoc. split; [done|].
      split; [done|]. apply Forall_app. split; [done|]. by constructor.
Qed.

Lemma not_in_transaction_nil : ~ in_transaction [].
Proof. intros (before & b & after & E & _). by destruct before. Qed.

Lemma tx_after_set (q : string) (w : World) :
  tx_after q w ≠ EmptyString
  <-> begins_tx q = true
      \/ (activeTxID (w_conn w) ≠ EmptyString /\ ends_tx q = false).
Proof.
  unfold tx_after. destruct (begins_tx q) eqn:Hb.
  - split; [by left|]. intros _. apply uuid_String_nonempty.
  - destruct (ends_tx q).
    + split; [done|]. intros [?|[_ ?]]; done.
    + split; [by right|]. intros [?|[? _]]; done.
Qed.

Lemma step_tx_tracked (a : Action) (w w' : World) :
  step a w = Ok tt w' -> tx_tracked w -> tx_tracked w'.
Proof.
  unfold tx_tracked. intros Hs Hw.
  destruct (step_effect a w w' Hs)
    as [(ev & -> & _ & _ & -> & _)|(-> & _ & -> & _)]; [|done].
  rewrite map_app. cbn [map]. rewrite in_transaction_snoc, tx_after_set. tauto.
Qed.

Lemma step_events_numbered (a : Action) (w w' : World) :
  step a w = Ok tt w' -> events_numbered w -> events_numbered w'.
Proof.
  unfold events_numbered. intros Hs [Hn Hids].
  destruct (step_effect a w w' Hs)
    as [(ev & -> & Hid & -> & _)|(-> & -> & _)]; [|done].
  rewrite Hn in *. rewrite length_app. cbn [length].
  assert (forall k, (k mod 2 ^ 64 + 1) mod 2 ^ 64 = (k + 1) mod 2 ^ 64) as E.
  { intros k. rewrite Zplus_mod_idemp_l. done. }
  split.
  - rewrite E. f_equal. lia.
  - intros i e Hi. apply lookup_app_Some in Hi as [Hi|[Hlen Hi]]; [by apply Hids|].
    apply list_lookup_singleton_Some in Hi as [Hi ->].
    rewrite Hid, E. do 2 f_equal. lia.
Qed.

Lemma step_unnamed_absent (a : Action) (w w' : World) :
  step a w = Ok tt w' -> unnamed_absent w -> unnamed_absent w'.
Proof.
  unfold unnamed_absent. intros Hs Hw.
  destruct (step_effect a w w' Hs)
    as [(ev & _ & _ & _ & _ & _ & -> & _)|(_ & _ & _ & -> & _)]; done.
Qed.

Lemma run_invariant_connect events clock entropy :
  run_invariant (connect events clock entropy).
Proof.
  split; [split|split].
  - reflexivity.
  - intros i ev Hi. cbn [connect w_emitted] in Hi. by rewrite lookup_nil in Hi.
  - split; [done|]. intros Hin. by apply not_in_transaction_nil in Hin.
  - apply lookup_empty.
Qed.

Lemma run_invariant_run (tr : list Action) (w w' : World) :
  run tr w = Ok tt w' -> run_invariant w -> run_invariant w'.
Proof.
  revert w. induction tr as [|a tr IH]; intros w.
  - by intros [= <-].
  - intros (w1 & Hs & Hr)%run_cons (Hn & Ht & Hu).
    apply (IH w1 Hr). split; [|split].
    + by apply (step_events_numbered a w).
    + by apply (step_tx_tracked a w).
    + by apply (step_unnamed_absent a w).
Qed.

End RunFacts.

(** ** What the tracker remembers *)

Section TrackerFacts.

Context `{strings.Unicode}.

Lemma step_tracker (a : Action) (w w' : World) :
  step a w = Ok tt w' ->
  lastParse (w_conn w')
    = match last_Parse [a] with
      | Some p => pgproto.Parse.Query p
      | None => lastParse (w_conn w)
      end
  /\ lastBindStmt (w_conn w')
     = match last_Bind [a] with
       | Some b => pgproto.Bind.PreparedStatement b
       | None => lastBindStmt (w_conn w)
       end
  /\ lastBindArgs (w_conn w')
     = match last_Bind [a] with
       | Some b => map string_of_bytes (pgproto.Bind.Parameters b)
       | None => lastBindArgs (w_conn w)
       end
  /\ forall name : string,
       name ≠ EmptyString ->
       preparedStmts (w_conn w') !! name
       = match last_named_Parse name [a] with
         | Some q => Some q
         | None => preparedStmts (w_conn w) !! name
         end.
Proof.
  destruct a as [msg|msg| |ev]; cbn [step].
  - destruct msg as [m|m|m|m|]; cbn [captureClientMsg].
    + rewrite handleSimpleQuery_eq. intros [= <-]. done.
    + rewrite handleParse_eq. intros [= <-].
      destruct w as [[] ? ? ? ? ? ?]. cbn.
      destruct (decide (pgproto.Parse.Name m ≠ EmptyString)) as [Hn|Hn]; cbn.
      * repeat split. intros name Hname.
        destruct (decide (pgproto.Parse.Name m = name)) as [<-|Hne].
        -- by rewrite lookup_insert_eq.
        -- by rewrite lookup_insert_ne.
      * repeat split. intros name Hname.
        destruct (decide (pgproto.Parse.Name m = name)) as [<-|Hne]; [|done].
        destruct Hn. done.
    + rewrite handleBind_eq. intros [= <-].
      destruct w as [[] ? ? ? ? ? ?]. done.
    + rewrite handleExecute_eq. intros [= <-]. done.
    + intros [= <-]. done.
  - rewrite captureUpstreamMsg_eq. intros [= <-]. done.
  - intros [= <-]. done.
  - unfold bind, chansend, ret.
    destruct (length (chan_buf (w_events w)) <? chan_cap (w_events w))%nat;
      intros [= <-]; done.
Qed.

(** After a run the tracker holds the most recent Parse and Bind of the
    run, and the map holds, under every name, the most recent Parse that
    carried it. *)
Lemma run_tracker (tr : list Action) (w w' : World) :
  run tr w = Ok tt w' ->
  lastParse (w_conn w')
    = match last_Parse tr with
      | Some p => pgproto.Parse.Query p
      | None => lastParse (w_conn w)
      end
  /\ lastBindStmt (w_conn w')
     = match last_Bind tr with
       | Some b => pgproto.Bind.PreparedStatement b
       | None => lastBindStmt (w_conn w)
       end
  /\ lastBindArgs (w_conn w')
     = match last_Bind tr with
       | Some b => map string_of_bytes (pgproto.Bind.Parameters b)
       | None => lastBindArgs (w_conn w)
       end
  /\ forall name : string,
       name ≠ EmptyString ->
       preparedStmts (w_conn w') !! name
       = match last_named_Parse name tr with
         | Some q => Some q
         | None => preparedStmts (w_conn w) !! name
         end.
Proof.
  revert w. induction tr as [|a tr IH]; intros w.
  - intros [= <-]. done.
  - intros (w1 & Hs & Hr)%run_cons.
    destruct (IH w1 Hr) as (Hp & Hbs & Hba & Hm).
    destruct (step_tracker a w w1 Hs) as (Hp1 & Hbs1 & Hba1 & Hm1).
    cbn [last_Parse last_Bind last_named_Parse] in *.
    split; [|split; [|split]].
    + rewrite Hp, Hp1. by destruct (last_Parse tr).
    + rewrite Hbs, Hbs1. by destruct (last_Bind tr).
    + rewrite Hba, Hba1. by destruct (last_Bind tr).
    + intros name Hname. rewrite (Hm name Hname), (Hm1 name Hname).
      by destruct (last_named_Parse name tr).
Qed.

Lemma last_Parse_in (tr : list Action) (p : pgproto.Parse.t) :
  last_Parse tr = Some p -> FromClient (pgproto.MsgParse p) ∈ tr.
Proof.
  induction tr as [|a tr IH]; [done|]. cbn [last_Parse].
  destruct (last_Parse tr) as [p'|].
  - intros [= <-]. right. by apply IH.
  - destruct a as [[]| | |]; try done. intros [= <-]. left.
Qed.

Lemma last_named_Parse_in (name : string) (tr : list Action) (q : string) :
  last_named_Parse name tr = Some q ->
  exists p, FromClient (pgproto.MsgParse p) ∈ tr
            /\ pgproto.Parse.Name p = name /\ pgproto.Parse.Query p = q.
Proof.
  induction tr as [|a tr IH]; [done|]. cbn [last_named_Parse].
  destruct (last_named_Parse name tr) as [q'|].
  - intros [= <-]. destruct IH as (p & Hin & Hp); [done|].
    exists p. split; [by right|done].
  - destruct a as [[m|p|m|m|t l]|msg| |ev]; try done.
    destruct (decide (pgproto.Parse.Name p = name)); [|done].
    intros [= <-]. exists p. split; [left|done].
Qed.

(** On a connection that started fresh, the guard on the empty name in
    [handleExecute] does not change the text it settles on. *)
Lemma resolved_query_guard (w : World) :
  unnamed_absent w ->
  (if decide (lastBindStmt (w_conn w) ≠ EmptyString)
   then resolved_query (w_conn w) else lastParse (w_conn w))
  = resolved_query (w_conn w).
Proof.
  unfold unnamed_absent, resolved_query. intros Hu.
  destruct (decide (lastBindStmt (w_conn w) ≠ EmptyString)) as [|Hn]; [done|].
  apply dec_stable in Hn. by rewrite Hn, Hu.
Qed.

(** The events of a run, oldest first, are those of its triggers. *)
Lemma run_events (tr : list Action) (w w' : World) :
  run tr w = Ok tt w' ->
  exists new, w_emitted w' = w_emitted w ++ new /\ Forall2 event_of (triggers tr) new.
Proof.
  revert w. induction tr as [|a tr IH]; intros w.
  - intros [= <-]. exists []. by rewrite app_nil_r.
  - intros (w1 & Hs & Hr)%run_cons.
    destruct (IH w1 Hr) as (new & -> & Hnew).
    destruct (step_effect a w w1 Hs)
      as [(ev & -> & _ & _ & _ & _ & _ & msg & -> & Ht & Hev)|(-> & _ & _ & _ & Ht)].
    + exists (ev :: new). rewrite <- app_assoc. split; [done|].
      replace (triggers (FromClient msg :: tr))
        with (triggers [FromClient msg] ++ triggers tr).
      * rewrite Ht. by constructor.
      * destruct msg; reflexivity.
    + exists new. split; [done|].
      replace (triggers (a :: tr)) with (triggers [a] ++ triggers tr).
      * by rewrite Ht.
      * destruct a as [[]| | |]; reflexivity.
Qed.

End TrackerFacts.

(** ** The properties of the relay *)

Section Relay.

Context `{strings.Unicode}.

(** C2. On a connection that started fresh, whatever was relayed before,
    an Execute hands one event to [emitEvent]: its operation is Execute,
    its arguments are the parameter strings of the most recent Bind (none
    if there was no Bind), its transaction identifier is [activeTxID] as
    the hook leaves it, and its query is [preparedStmts[lastBindStmt]]
    when the map has that name and [lastParse] otherwise, where
    [lastParse] is the text of the most recent Parse, [lastBindStmt] the
    statement of the most recent Bind, and the map holds under each name
    the most recent Parse that carried it and nothing under the empty
    name. *)
Theorem execute_event_from_tracker
    (events : chan) (clock : nat -> Time) (entropy : nat -> N)
    (tr : list Action) (w : World) (m : pgproto.Execute.t) :
  run tr (connect events clock entropy) = Ok tt w ->
  exists ev w',
    captureClientMsg (pgproto.MsgExecute m) w = Ok tt w'
    /\ w_emitted w' = w_emitted w ++ [ev]
    /\ proxy.Op ev = proxy.OpExecute
    /\ proxy.Args ev = lastBindArgs (w_conn w)
    /\ proxy.TxID ev = activeTxID (w_conn w')
    /\ proxy.Query ev = resolved_query (w_conn w)
    /\ lastBindArgs (w_conn w)
       = match last_Bind tr with
         | Some b => map string_of_bytes (pgproto.Bind.Parameters b)
         | None => []
         end
    /\ lastBindStmt (w_conn w)
       = match last_Bind tr with
         | Some b => pgproto.Bind.PreparedStatement b
         | None => EmptyString
         end
    /\ lastParse (w_conn w)
       = match last_Parse tr with
         | Some p => pgproto.Parse.Query p
         | None => EmptyString
         end
    /\ forall name : string,
         preparedStmts (w_conn w) !! name
         = if decide (name = EmptyString) then None else last_named_Parse name tr.
Proof.
  intros Hrun.
  destruct (run_invariant_run tr _ w Hrun (run_invariant_connect _ _ _)) as (_ & _ & Hu).
  destruct (run_tracker tr _ w Hrun) as (Hp & Hbs & Hba & Hm).
  cbn [captureClientMsg]. rewrite handleExecute_eq. cbv zeta.
  rewrite (resolved_query_guard w Hu).
  eexists _, _. split; [reflexivity|].
  cbn [w_emitted w_conn proxy.Op proxy.Args proxy.TxID proxy.Query execute_event].
  repeat (split; [done|]).
  intros name. destruct (decide (name = EmptyString)) as [->|Hname]; [done|].
  rewrite (Hm name Hname). cbn. rewrite lookup_empty.
  by destruct (last_named_Parse name tr).
Qed.

(** C3, as amended. On a connection that started fresh, as long as fewer
    than [2^64] events were handed to [emitEvent]: the counter is the
    number of events; the event at position [i] (from zero) carries the
    decimal string of [i + 1], which reads back as that number, so the
    first identifier is ["1"] and each later one is the next number; the
    events are those of the triggering client messages, in the order
    these were decoded; and the counter after any prefix of the run is at
    most the counter after the run. *)
Theorem event_ids_count_from_one
    (events : chan) (clock : nat -> Time) (entropy : nat -> N)
    (tr : list Action) (w : World) :
  run tr (connect events clock entropy) = Ok tt w ->
  Z.of_nat (length (w_emitted w)) < 2 ^ 64 ->
  nextID (w_conn w) = Z.of_nat (length (w_emitted w))
  /\ (forall (i : nat) (ev : proxy.Event),
        w_emitted w !! i = Some ev ->
        proxy.ID ev = strconv.FormatUint (Z.of_nat i + 1)
        /\ strconv.ParseUint (proxy.ID ev) 10 64 = (Z.of_nat i + 1, None))
  /\ (forall ev : proxy.Event, head (w_emitted w) = Some ev -> proxy.ID ev = "1")
  /\ Forall2 event_of (triggers tr) (w_emitted w)
  /\ (forall (tr1 tr2 : list Action) (w1 : World),
        tr = tr1 ++ tr2 ->
        run tr1 (connect events clock entropy) = Ok tt w1 ->
        nextID (w_conn w1) <= nextID (w_conn w)).
Proof.
  intros Hrun Hlen.
  destruct (run_invariant_run tr _ w Hrun (run_invariant_connect _ _ _))
    as ((Hn & Hids) & _ & _).
  assert (forall (i : nat) (ev : proxy.Event),
             w_emitted w !! i = Some ev ->
             proxy.ID ev = strconv.FormatUint (Z.of_nat i + 1)) as Hid.
  { intros i ev Hi. rewrite (Hids i ev Hi).
    apply lookup_lt_Some in Hi. by rewrite Z.mod_small by lia. }
  split; [|split; [|split; [|split]]].
  - rewrite Hn. apply Z.mod_small. lia.
  - intros i ev Hi. rewrite (Hid i ev Hi). split; [done|].
    apply lookup_lt_Some in Hi. apply ParseUint_FormatUint. lia.
  - intros ev Hev. rewrite head_lookup in Hev. by rewrite (Hid 0%nat ev Hev).
  - destruct (run_events tr _ w Hrun) as (new & E & Hnew).
    cbn [connect w_emitted app] in E. by rewrite E.
  - intros tr1 tr2 w1 -> Hrun1.
    rewrite run_app in Hrun. unfold bind in Hrun. rewrite Hrun1 in Hrun.
    destruct (run_events tr2 w1 w Hrun) as (new & E & _).
    destruct (run_invariant_run tr1 _ w1 Hrun1 (run_invariant_connect _ _ _))
      as ((Hn1 & _) & _ & _).
    rewrite E, length_app in Hlen. rewrite Hn, Hn1, E, length_app.
    rewrite !Z.mod_small by lia. lia.
Qed.

(** C4. On a connection that started fresh, after any run, [activeTxID] is
    non-empty exactly when the queries of the events so far hold a
    BEGIN-class query with no COMMIT- or ROLLBACK-class query after it.
    From any world, [detectTx] returns, and: on a BEGIN-class query it
    sets [activeTxID] to the canonical string of a UUID made from the next
    sixteen bytes of the random source, a string of 36 bytes and so not
    empty; on a COMMIT- or ROLLBACK-class query it clears it; on any other
    query it leaves it as it was. *)
Theorem active_tx_id_between_begin_and_end
    (events : chan) (clock : nat -> Time) (entropy : nat -> N)
    (tr : list Action) (w : World) :
  run tr (connect events clock entropy) = Ok tt w ->
  (activeTxID (w_conn w) ≠ EmptyString
   <-> in_transaction (map proxy.Query (w_emitted w)))
  /\ forall (query : string) (w0 : World),
       exists w',
         detectTx query w0 = Ok tt w'
         /\ (begins_tx query = true ->
             activeTxID (w_conn w')
               = uuid.String (uuid.NewRandom (w_entropy w0 (w_draws w0)))
             /\ String.length (activeTxID (w_conn w')) = 36%nat
             /\ activeTxID (w_conn w') ≠ EmptyString
             /\ w_draws w' = S (w_draws w0))
         /\ (ends_tx query = true -> activeTxID (w_conn w') = EmptyString)
         /\ (begins_tx query = false -> ends_tx query = false ->
             activeTxID (w_conn w') = activeTxID (w_conn w0)).
Proof.
  intros Hrun.
  destruct (run_invariant_run tr _ w Hrun (run_invariant_connect _ _ _)) as (_ & Ht & _).
  split; [exact Ht|].
  intros query w0. rewrite detectTx_eq. eexists. split; [reflexivity|].
  cbn [w_conn w_draws]. unfold tx_after, draws_after.
  destruct w0 as [[] ? ? ? ? ? ?]. cbn [activeTxID set_activeTxID w_conn w_entropy w_draws].
  split; [|split].
  - intros Hb. rewrite Hb. repeat split.
    apply uuid_String_nonempty.
  - intros He. destruct (begins_tx query) eqn:Hb.
    + apply begins_not_ends in Hb. congruence.
    + by rewrite He.
  - by intros -> ->.
Qed.

(** What C1 is about, on the code: for every simple Query whose text is
    COMMIT- or ROLLBACK-class, in every world, the event carries the
    empty identifier and [activeTxID] is empty afterwards. *)
Lemma end_event_has_empty_tx_id (m : pgproto.Query.t) (w : World) :
  ends_tx (pgproto.Query.String m) = true ->
  exists ev w',
    captureClientMsg (pgproto.MsgQuery m) w = Ok tt w'
    /\ w_emitted w' = w_emitted w ++ [ev]
    /\ proxy.TxID ev = EmptyString
    /\ activeTxID (w_conn w') = EmptyString.
Proof.
  intros He. cbn [captureClientMsg]. rewrite handleSimpleQuery_eq. cbv zeta.
  eexists _, _. split; [reflexivity|].
  assert (tx_after (pgproto.Query.String m) w = EmptyString) as Htx.
  { unfold tx_after. destruct (begins_tx (pgproto.Query.String m)) eqn:Hb.
    - apply begins_not_ends in Hb. congruence.
    - by rewrite He. }
  cbn. rewrite Htx. done.
Qed.

(** C5, as amended. On a connection that started fresh, the query field of
    every event is the text of its query as the client sent it, whether
    or not that text carries BEGIN, COMMIT or ROLLBACK: a simple Query
    gives an event of operation Query with the text of the message, and
    an Execute gives an event of operation Execute with the text the
    tracker resolves, which is the text of a Parse of the run (or empty
    when there was none). *)
Theorem event_query_is_the_text_sent
    (events : chan) (clock : nat -> Time) (entropy : nat -> N)
    (tr : list Action) (w : World) :
  run tr (connect events clock entropy) = Ok tt w ->
  (forall m : pgproto.Query.t,
      exists ev w',
        captureClientMsg (pgproto.MsgQuery m) w = Ok tt w'
        /\ w_emitted w' = w_emitted w ++ [ev]
        /\ proxy.Op ev = proxy.OpQuery
        /\ proxy.Query ev = pgproto.Query.String m)
  /\ (forall m : pgproto.Execute.t,
        exists ev w',
          captureClientMsg (pgproto.MsgExecute m) w = Ok tt w'
          /\ w_emitted w' = w_emitted w ++ [ev]
          /\ proxy.Op ev = proxy.OpExecute
          /\ proxy.Query ev = resolved_query (w_conn w)
          /\ (proxy.Query ev = EmptyString
              \/ exists p, FromClient (pgproto.MsgParse p) ∈ tr
                           /\ proxy.Query ev = pgproto.Parse.Query p)).
Proof.
  intros Hrun. split.
  - intros m. cbn [captureClientMsg]. rewrite handleSimpleQuery_eq.
    eexists _, _. split; [reflexivity|]. done.
  - intros m.
    destruct (run_invariant_run tr _ w Hrun (run_invariant_connect _ _ _)) as (_ & _ & Hu).
    destruct (run_tracker tr _ w Hrun) as (Hp & Hbs & _ & Hm).
    cbn [captureClientMsg]. rewrite handleExecute_eq. cbv zeta.
    rewrite (resolved_query_guard w Hu).
    eexists _, _. split; [reflexivity|].
    cbn [w_emitted w_conn proxy.Op proxy.Query execute_event].
    repeat (split; [done|]).
    unfold resolved_query.
    destruct (decide (lastBindStmt (w_conn w) = EmptyString)) as [E|Hname].
    + rewrite E, Hu, Hp. destruct (last_Parse tr) as [p|] eqn:Hlp; [|by left].
      right. exists p. split; [by apply last_Parse_in|done].
    + rewrite (Hm _ Hname). cbn [connect newConn w_conn preparedStmts lastParse].
      destruct (last_named_Parse (lastBindStmt (w_conn w)) tr) as [q|] eqn:Hq.
      * apply last_named_Parse_in in Hq as (p & Hin & _ & <-). right. eauto.
      * rewrite lookup_empty, Hp. destruct (last_Parse tr) as [p|] eqn:Hlp; [|by left].
        right. exists p. split; [by apply last_Parse_in|done].
Qed.

(** C6. [emitEvent] returns for every event and every world: the
    goroutine is neither parked nor panics. When the buffer of the channel
    has room the event is queued behind the others; when it has none the
    channel is left as it is. Either way no field of [conn] changes, the
    capacity stays, and nothing is reported to the caller. *)
Theorem emitEvent_never_blocks (ev : proxy.Event) (w : World) :
  exists w',
    emitEvent ev w = Ok tt w'
    /\ w_conn w' = w_conn w
    /\ chan_cap (w_events w') = chan_cap (w_events w)
    /\ ((length (chan_buf (w_events w)) < chan_cap (w_events w))%nat ->
        chan_buf (w_events w') = chan_buf (w_events w) ++ [ev])
    /\ ((chan_cap (w_events w) <= length (chan_buf (w_events w)))%nat ->
        w_events w' = w_events w)
    /\ w_emitted w' = w_emitted w ++ [ev].
Proof.
  rewrite emitEvent_eq. eexists. split; [reflexivity|].
  cbn [w_conn w_events w_emitted]. unfold try_send.
  destruct (Nat.ltb_spec (length (chan_buf (w_events w))) (chan_cap (w_events w)));
    cbn [chan_cap chan_buf]; repeat split; try done; lia.
Qed.

(** C8. A Parse sets [lastParse] to its query text, stores the text under
    its name exactly when the name is not empty, removes no name from
    the map, hands no event to [emitEvent] and changes nothing else. A
    Bind sets [lastBindStmt] to its statement and [lastBindArgs] to its
    parameters read as strings, in order, hands no event to [emitEvent]
    and changes nothing else. *)
Theorem parse_and_bind_only_track (w : World) :
  (forall m : pgproto.Parse.t,
      exists c',
        handleParse m w = Ok tt (with_conn c' w)
        /\ lastParse c' = pgproto.Parse.Query m
        /\ preparedStmts c'
           = (if decide (pgproto.Parse.Name m = EmptyString)
              then preparedStmts (w_conn w)
              else <[pgproto.Parse.Name m := pgproto.Parse.Query m]>
                     (preparedStmts (w_conn w)))
        /\ dom (preparedStmts (w_conn w)) ⊆ dom (preparedStmts c')
        /\ lastBindArgs c' = lastBindArgs (w_conn w)
        /\ lastBindStmt c' = lastBindStmt (w_conn w)
        /\ executeStart c' = executeStart (w_conn w)
        /\ activeTxID c' = activeTxID (w_conn w)
        /\ nextID c' = nextID (w_conn w))
  /\ (forall m : pgproto.Bind.t,
        exists c',
          handleBind m w = Ok tt (with_conn c' w)
          /\ lastBindStmt c' = pgproto.Bind.PreparedStatement m
          /\ lastBindArgs c' = map string_of_bytes (pgproto.Bind.Parameters m)
          /\ length (lastBindArgs c') = length (pgproto.Bind.Parameters m)
          /\ preparedStmts c' = preparedStmts (w_conn w)
          /\ lastParse c' = lastParse (w_conn w)
          /\ executeStart c' = executeStart (w_conn w)
          /\ activeTxID c' = activeTxID (w_conn w)
          /\ nextID c' = nextID (w_conn w)).
Proof.
  split; intros m.
  - rewrite handleParse_eq. eexists. split; [reflexivity|].
    destruct (decide (pgproto.Parse.Name m = EmptyString)) as [E|Hne].
    + destruct (decide (pgproto.Parse.Name m ≠ EmptyString)); [done|].
      destruct w as [[] ? ? ? ? ? ?]. done.
    + destruct (decide (pgproto.Parse.Name m ≠ EmptyString)); [|done].
      destruct w as [[] ? ? ? ? ? ?]. cbn. repeat split.
      rewrite dom_insert_L. set_solver.
  - rewrite handleBind_eq. eexists. split; [reflexivity|].
    destruct w as [[] ? ? ? ? ? ?]. cbn. repeat split. by rewrite length_map.
Qed.

(** C9. Capturing a CommandComplete or an ErrorResponse of the upstream
    returns the world it was given: no event, no field changed, no panic
    (and the same holds of every other backend message). *)
Theorem upstream_capture_changes_nothing (w : World) :
  (forall m : pgproto.CommandComplete.t,
      captureUpstreamMsg (pgproto.MsgCommandComplete m) w = Ok tt w
      /\ handleCommandComplete m w = Ok tt w)
  /\ (forall m : pgproto.ErrorResponse.t,
        captureUpstreamMsg (pgproto.MsgErrorResponse m) w = Ok tt w
        /\ handleErrorResponse m w = Ok tt w)
  /\ (forall msg : pgproto.BackendMessage, captureUpstreamMsg msg w = Ok tt w).
Proof.
  split; [|split].
  - intros m. split; [apply captureUpstreamMsg_eq|apply handleCommandComplete_eq].
  - intros m. split; [apply captureUpstreamMsg_eq|reflexivity].
  - intros msg. apply captureUpstreamMsg_eq.
Qed.

End Relay.

(** ** ASCII text: only the leading space matters *)

Section AsciiFacts.

Import ascii_text.

Lemma upper_byte_space (c : ascii) : is_space c = true -> upper_byte c = c.
Proof.
  unfold is_space, upper_byte. intros Hc.
  destruct (Z.leb_spec 97 (byte_code c)); [|done].
  destruct (Z.leb_spec (byte_code c) 122); [|done]. lia.
Qed.

Lemma prefix_nil_r (kw : string) :
  String.prefix kw EmptyString = true -> kw = EmptyString.
Proof. by destruct kw. Qed.

(** The trailing space that [TrimSpace] removes as well cannot change
    whether the text begins with a keyword. *)
Lemma TrimRight_keyword (kw s : string) :
  spaceless kw = true ->
  strings.HasPrefix (ToUpper (TrimRight s)) kw = strings.HasPrefix (ToUpper s) kw.
Proof.
  unfold strings.HasPrefix.
  revert kw. induction s as [|c rest IH]; intros kw Hkw; [done|].
  destruct kw as [|k kw']; [by destruct (TrimRight (String c rest))|].
  cbn [spaceless] in Hkw.
  apply andb_true_iff in Hkw as [Hk Hkw'].
  specialize (IH kw' Hkw').
  cbn [TrimRight ToUpper].
  destruct (TrimRight rest) as [|c' kept] eqn:Htr.
  - destruct (is_space c) eqn:Hc.
    + cbn [ToUpper String.prefix]. rewrite (upper_byte_space c Hc).
      destruct (ascii_dec k c) as [->|]; [|done].
      rewrite Hc in Hk. done.
    + cbn [ToUpper String.prefix]. cbn [ToUpper] in IH.
      destruct (ascii_dec k (upper_byte c)); [exact IH|done].
  - cbn [ToUpper String.prefix]. cbn [ToUpper] in IH.
    destruct (ascii_dec k (upper_byte c)); [exact IH|done].
Qed.

Lemma TrimSpace_keyword (kw query : string) :
  spaceless kw = true ->
  strings.HasPrefix (ToUpper (TrimSpace query)) kw
  = strings.HasPrefix (ToUpper (TrimLeft query)) kw.
Proof. intros Hkw. unfold TrimSpace. by apply TrimRight_keyword. Qed.

End AsciiFacts.

(** ** Concrete runs *)

Section Concrete.

Local Existing Instance ascii_text.unicode.

Example detect_begin : begins_tx "  begin transaction" = true.
Proof. reflexivity. Qed.

Example detect_rollback : ends_tx "rollback to savepoint a" = true.
Proof. reflexivity. Qed.

(** On ASCII text a query is BEGIN-class, or COMMIT- or ROLLBACK-class,
    by its text after the leading space alone. *)
Lemma keyword_after_leading_space (query : string) :
  begins_tx query
  = strings.HasPrefix (ascii_text.ToUpper (ascii_text.TrimLeft query)) "BEGIN"
  /\ ends_tx query
     = strings.HasPrefix (ascii_text.ToUpper (ascii_text.TrimLeft query)) "COMMIT"
       || strings.HasPrefix (ascii_text.ToUpper (ascii_text.TrimLeft query)) "ROLLBACK".
Proof.
  unfold begins_tx, ends_tx, keyword_text. cbn [strings.ToUpper strings.TrimSpace ascii_text.unicode].
  rewrite !TrimSpace_keyword by reflexivity. done.
Qed.

Example detect_savepoint :
  begins_tx "SAVEPOINT a" = false /\ ends_tx "SAVEPOINT a" = false.
Proof. split; reflexivity. Qed.

(** C1 on the code. After a BEGIN the connection holds a transaction
    identifier; the COMMIT that follows is a COMMIT-class query, and the
    event the hook hands to [emitEvent] for it carries the empty
    identifier, not the one that was set when the COMMIT was observed.
    [activeTxID] is empty afterwards. *)
Lemma commit_event_carries_no_tx_id :
  exists w1 w2 ev,
    run [scenario.query "BEGIN"] scenario.fresh = Ok tt w1
    /\ activeTxID (w_conn w1) = "00000000-0000-4000-8000-000000000000"
    /\ ends_tx "COMMIT" = true
    /\ step (scenario.query "COMMIT") w1 = Ok tt w2
    /\ w_emitted w2 = w_emitted w1 ++ [ev]
    /\ proxy.TxID ev = EmptyString
    /\ activeTxID (w_conn w2) = EmptyString.
Proof.
  eexists _, _, _.
  split; [vm_compute; reflexivity|].
  split; [vm_compute; reflexivity|].
  split; [vm_compute; reflexivity|].
  split; [vm_compute; reflexivity|].
  split; [vm_compute; reflexivity|].
  split; vm_compute; reflexivity.
Qed.

(** The transaction scenario: the BEGIN and the query inside carry the
    identifier, the COMMIT carries none. *)
Example transaction_events :
  exists w, run scenario.transaction scenario.fresh = Ok tt w
            /\ map proxy.TxID (w_emitted w)
               = ["00000000-0000-4000-8000-000000000000";
                  "00000000-0000-4000-8000-000000000000"; EmptyString]
            /\ map proxy.ID (w_emitted w) = ["1"; "2"; "3"]
            /\ map proxy.Op (w_emitted w) = [proxy.OpQuery; proxy.OpQuery; proxy.OpQuery].
Proof.
  eexists. split; [vm_compute; reflexivity|]. vm_compute. done.
Qed.

(** C5, as stated, fails: BEGIN is a BEGIN-class query, and the event of
    the simple Query that carries it has the text as its query field, not
    the empty string. *)
Lemma begin_event_keeps_its_text :
  exists w ev,
    begins_tx "BEGIN" = true
    /\ step (scenario.query "BEGIN") scenario.fresh = Ok tt w
    /\ w_emitted w = [ev]
    /\ proxy.Query ev = "BEGIN"
    /\ proxy.Op ev = proxy.OpQuery.
Proof.
  eexists _, _.
  split; [vm_compute; reflexivity|].
  split; [vm_compute; reflexivity|].
  split; [vm_compute; reflexivity|].
  split; vm_compute; reflexivity.
Qed.

(** The Execute of the prepared scenario: the text of [p1] and the bound
    argument. *)
Lemma execute_event_from_tracker_witness :
  run scenario.prepared scenario.fresh = Ok tt (scenario.after scenario.prepared)
  /\ exists ev w',
       captureClientMsg (pgproto.MsgExecute scenario.execute)
         (scenario.after scenario.prepared) = Ok tt w'
       /\ proxy.Op ev = proxy.OpExecute
       /\ proxy.Args ev = ["x"]
       /\ proxy.Query ev = "INSERT INTO t VALUES ($1)"
       /\ proxy.TxID ev = activeTxID (w_conn w').
Proof.
  assert (run scenario.prepared scenario.fresh = Ok tt (scenario.after scenario.prepared))
    as Hrun by (vm_compute; reflexivity).
  split; [exact Hrun|].
  destruct (execute_event_from_tracker _ _ _ _ _ scenario.execute Hrun)
    as (ev & w' & Hs & _ & Hop & Hargs & Htx & Hq & _).
  exists ev, w'. split; [exact Hs|]. split; [exact Hop|].
  split; [rewrite Hargs; vm_compute; reflexivity|].
  split; [rewrite Hq; vm_compute; reflexivity|].
  exact Htx.
Defined.

(** The three events of the transaction scenario are numbered from one. *)
Lemma event_ids_count_from_one_witness :
  run scenario.transaction scenario.fresh = Ok tt (scenario.after scenario.transaction)
  /\ Z.of_nat (length (w_emitted (scenario.after scenario.transaction))) < 2 ^ 64
  /\ nextID (w_conn (scenario.after scenario.transaction)) = 3
  /\ map proxy.ID (w_emitted (scenario.after scenario.transaction)) = ["1"; "2"; "3"]
  /\ Forall2 event_of (triggers scenario.transaction)
       (w_emitted (scenario.after scenario.transaction)).
Proof.
  assert (run scenario.transaction scenario.fresh
          = Ok tt (scenario.after scenario.transaction))
    as Hrun by (vm_compute; reflexivity).
  assert (Z.of_nat (length (w_emitted (scenario.after scenario.transaction))) < 2 ^ 64)
    as Hlen by (vm_compute; reflexivity).
  destruct (event_ids_count_from_one _ _ _ _ _ Hrun Hlen) as (Hn & _ & _ & Hev & _).
  split; [exact Hrun|]. split; [exact Hlen|].
  split; [rewrite Hn; vm_compute; reflexivity|].
  split; [vm_compute; reflexivity|exact Hev].
Defined.

(** After BEGIN and a query the identifier is set, and the queries so far
    leave a transaction open; after the COMMIT neither holds. *)
Lemma active_tx_id_between_begin_and_end_witness :
  run scenario.open_transaction scenario.fresh
    = Ok tt (scenario.after scenario.open_transaction)
  /\ activeTxID (w_conn (scenario.after scenario.open_transaction))
     = "00000000-0000-4000-8000-000000000000"
  /\ in_transaction (map proxy.Query (w_emitted (scenario.after scenario.open_transaction))).
Proof.
  assert (run scenario.open_transaction scenario.fresh
          = Ok tt (scenario.after scenario.open_transaction))
    as Hrun by (vm_compute; reflexivity).
  destruct (active_tx_id_between_begin_and_end _ _ _ _ _ Hrun) as [Hiff _].
  split; [exact Hrun|]. split; [vm_compute; reflexivity|].
  apply Hiff. vm_compute. discriminate.
Defined.

(** A ROLLBACK sent in the prepared scenario keeps its text. *)
Lemma event_query_is_the_text_sent_witness :
  run scenario.prepared scenario.fresh = Ok tt (scenario.after scenario.prepared)
  /\ exists ev w',
       captureClientMsg (pgproto.MsgQuery (pgproto.Query.Build "ROLLBACK"))
         (scenario.after scenario.prepared) = Ok tt w'
       /\ w_emitted w' = w_emitted (scenario.after scenario.prepared) ++ [ev]
       /\ proxy.Query ev = "ROLLBACK".
Proof.
  assert (run scenario.prepared scenario.fresh = Ok tt (scenario.after scenario.prepared))
    as Hrun by (vm_compute; reflexivity).
  split; [exact Hrun|].
  destruct (event_query_is_the_text_sent _ _ _ _ _ Hrun) as [Hq _].
  destruct (Hq (pgproto.Query.Build "ROLLBACK")) as (ev & w' & Hs & He & _ & Htext).
  exists ev, w'. done.
Defined.

Lemma many_succ (n : N) (a : Action) : many (N.succ n) a = a :: many n a.
Proof. unfold many. apply N.iter_succ. Qed.

Lemma run_many_queries (text : string) (n : N) (w : World) :
  exists w',
    run (many n (scenario.query text)) w = Ok tt w'
    /\ Z.of_nat (length (w_emitted w')) = Z.of_nat (length (w_emitted w)) + Z.of_N n.
Proof.
  revert w. induction n as [|n IH] using N.peano_ind; intros w.
  - exists w. split; [reflexivity|]. lia.
  - rewrite many_succ. cbn [run]. unfold bind.
    destruct (step_returns (scenario.query text) w) as [w1 Hs]. rewrite Hs.
    destruct (IH w1) as (w' & Hr & Hlen). exists w'. split; [done|].
    rewrite Hlen.
    destruct (step_effect _ _ _ Hs) as [(ev & -> & _)|(_ & _ & _ & _ & Ht)]; [|done].
    rewrite length_app. cbn [length]. lia.
Qed.

(** C3, as stated, fails on a run long enough for the 64-bit counter to
    come round: after [2^64 - 1] queries the last event carries
    ["18446744073709551615"] and the counter holds that number; the next
    query gets the identifier ["0"], and the counter is zero. *)
Lemma event_ids_wrap_around :
  exists w1 w2 ev1 ev2,
    run scenario.full_round scenario.fresh = Ok tt w1
    /\ step (scenario.query "SELECT 1") w1 = Ok tt w2
    /\ last (w_emitted w1) = Some ev1
    /\ proxy.ID ev1 = "18446744073709551615"
    /\ nextID (w_conn w1) = 18446744073709551615
    /\ last (w_emitted w2) = Some ev2
    /\ proxy.ID ev2 = "0"
    /\ nextID (w_conn w2) = 0.
Proof.
  unfold scenario.full_round.
  destruct (run_many_queries "SELECT 1" 18446744073709551615 scenario.fresh)
    as (w1 & Hrun & Hlen).
  destruct (run_invariant_run _ _ w1 Hrun (run_invariant_connect _ _ _))
    as ((Hn & Hids) & _ & _).
  change (Z.of_nat (length (w_emitted scenario.fresh))) with 0 in Hlen.
  change (Z.of_N 18446744073709551615) with 18446744073709551615 in Hlen.
  rewrite Hlen in Hn. change ((0 + 18446744073709551615) mod 2 ^ 64)
    with 18446744073709551615 in Hn.
  destruct (lookup_lt_is_Some_2 (w_emitted w1) (Nat.pred (length (w_emitted w1))))
    as [ev1 Hev1]; [lia|].
  exists w1. eexists. exists ev1. eexists.
  split; [exact Hrun|].
  split; [unfold scenario.query; cbn [step captureClientMsg];
          rewrite handleSimpleQuery_eq; reflexivity|].
  split; [by rewrite last_lookup|].
  split.
  { rewrite (Hids _ _ Hev1).
    replace (Z.of_nat (Nat.pred (length (w_emitted w1))) + 1)
      with 18446744073709551615 by lia.
    vm_compute. reflexivity. }
  split; [exact Hn|].
  cbn [w_emitted w_conn]. split; [apply last_snoc|].
  unfold query_event, conn_after. cbn [proxy.ID nextID set_nextID].
  rewrite Hn. split; vm_compute; reflexivity.
Qed.

End Concrete.

(** ** The startup relay *)

Section Startup.

Import startup.

Context {encStartup : encoder StartupPacket}.
Context {encBackend : encoder pgproto.BackendMessage}.

Lemma encodeAndWrite_ok {A} `{encoder A} (dst dst' : Sock) (msg : A) :
  encodeAndWrite dst msg = (None, dst') ->
  exists buf, Encode msg = inr buf /\ sock_written dst' = sock_written dst ++ [buf].
Proof.
  unfold encodeAndWrite, Write.
  destruct (Encode msg) as [err|buf]; [done|].
  destruct (sock_left dst) as [[|k]|]; intros [= <-]; by exists buf.
Qed.

Lemma encodeAndWrite_failed {A} `{encoder A} (dst dst' : Sock) (msg : A) (err : error) :
  encodeAndWrite dst msg = (Some err, dst') ->
  dst' = dst
  /\ exists cause,
       (err = errWrap "postgres: encode" cause /\ Encode msg = inl cause)
       \/ (err = errWrap "postgres: write" cause
           /\ sock_left dst = Some O /\ cause = sock_err dst).
Proof.
  unfold encodeAndWrite, Write.
  destruct (Encode msg) as [cause|buf].
  - intros [= <- <-]. split; [done|]. exists cause. by left.
  - destruct (sock_left dst) as [[|k]|] eqn:E; intros [= <- <-].
    split; [done|]. exists (sock_err dst). by right.
Qed.

Lemma forwarded_nil {A} `{encoder A} (s : Sock) : forwarded (@nil A) s s.
Proof. exists []. split; [constructor|]. by rewrite app_nil_r. Qed.

Lemma forwarded_cons {A} `{encoder A} (msg : A) (msgs : list A) (s s1 s2 : Sock) :
  encodeAndWrite s msg = (None, s1) ->
  forwarded msgs s1 s2 ->
  forwarded (msg :: msgs) s s2.
Proof.
  intros (buf & Hb & Hw)%encodeAndWrite_ok (bufs & Hbs & Hws).
  exists (buf :: bufs). split; [by constructor|].
  rewrite Hws, Hw, <- app_assoc. done.
Qed.

(** The loop, read by its outcome. *)
Lemma relayAuth_outcome (incoming : list (error + pgproto.BackendMessage)) (client : Sock) :
  match relayAuth incoming client with
  | (Returned None, rest, client') =>
      exists pre rfq,
        incoming = map inr (pre ++ [pgproto.MsgReadyForQuery rfq]) ++ rest
        /\ forallb passes pre = true
        /\ forwarded (pre ++ [pgproto.MsgReadyForQuery rfq]) client client'
  | (Returned (Some err), rest, client') =>
      (exists pre er,
          err = errNew "postgres: auth error from upstream"
          /\ incoming = map inr (pre ++ [pgproto.MsgErrorResponse er]) ++ rest
          /\ forallb passes pre = true
          /\ forwarded (pre ++ [pgproto.MsgErrorResponse er]) client client')
      \/ (exists pre cause,
            err = errWrap "postgres: receive auth" cause
            /\ incoming = map inr pre ++ inl cause :: rest
            /\ forallb passes pre = true
            /\ forwarded pre client client')
      \/ (exists pre msg cause,
            err = errWrap "postgres: send auth" cause
            /\ incoming = map inr pre ++ inr msg :: rest
            /\ forallb passes pre = true
            /\ forwarded pre client client'
            /\ fst (encodeAndWrite client' msg) = Some cause)
  | (Blocked, rest, client') =>
      exists pre,
        incoming = map inr pre /\ rest = []
        /\ forallb passes pre = true
        /\ forwarded pre client client'
  end.
Proof.
  revert client. induction incoming as [|[cause|msg] incoming IH]; intros client.
  - cbn [relayAuth]. exists []. repeat split. apply forwarded_nil.
  - cbn [relayAuth]. right. left. exists [], cause. repeat split. apply forwarded_nil.
  - cbn [relayAuth].
    destruct (encodeAndWrite client msg) as [[cause|] client1] eqn:Hw.
    + right. right. exists [], msg, cause.
      apply encodeAndWrite_failed in Hw as Hf. destruct Hf as [-> _].
      repeat split; [apply forwarded_nil|by rewrite Hw].
    + assert (forall tail, forwarded tail client1 client1 ->
                           forwarded (msg :: tail) client client1) as Hone.
      { intros tail. by apply forwarded_cons. }
      specialize (IH client1).
      destruct msg as [m|m|m|tag payload].
      * destruct (relayAuth incoming client1) as [[[[err|]|] rest] client'].
        -- destruct IH as [(pre & er & -> & -> & Hp & Hf)
                          |[(pre & cause & -> & -> & Hp & Hf)
                           |(pre & msg & cause & -> & -> & Hp & Hf & Hc)]].
           ++ left. exists (pgproto.MsgCommandComplete m :: pre), er.
              repeat split; [done|]. by apply (forwarded_cons _ _ _ client1).
           ++ right. left. exists (pgproto.MsgCommandComplete m :: pre), cause.
              repeat split; [done|]. by apply (forwarded_cons _ _ _ client1).
           ++ right. right. exists (pgproto.MsgCommandComplete m :: pre), msg, cause.
              repeat split; [done| |done]. by apply (forwarded_cons _ _ _ client1).
        -- destruct IH as (pre & rfq & -> & Hp & Hf).
           exists (pgproto.MsgCommandComplete m :: pre), rfq.
           repeat split; [done|]. by apply (forwarded_cons _ _ _ client1).
        -- destruct IH as (pre & -> & -> & Hp & Hf).
           exists (pgproto.MsgCommandComplete m :: pre).
           repeat split; [done|]. by apply (forwarded_cons _ _ _ client1).
      * left. exists [], m. repeat split. apply Hone, forwarded_nil.
      * exists [], m. repeat split. apply Hone, forwarded_nil.
      * destruct (relayAuth incoming client1) as [[[[err|]|] rest] client'].
        -- destruct IH as [(pre & er & -> & -> & Hp & Hf)
                          |[(pre & cause & -> & -> & Hp & Hf)
                           |(pre & msg & cause & -> & -> & Hp & Hf & Hc)]].
           ++ left. exists (pgproto.MsgBackendOther tag payload :: pre), er.
              repeat split; [done|]. by apply (forwarded_cons _ _ _ client1).
           ++ right. left. exists (pgproto.MsgBackendOther tag payload :: pre), cause.
              repeat split; [done|]. by apply (forwarded_cons _ _ _ client1).
           ++ right. right. exists (pgproto.MsgBackendOther tag payload :: pre), msg, cause.
              repeat split; [done| |done]. by apply (forwarded_cons _ _ _ client1).
        -- destruct IH as (pre & rfq & -> & Hp & Hf).
           exists (pgproto.MsgBackendOther tag payload :: pre), rfq.
           repeat split; [done|]. by apply (forwarded_cons _ _ _ client1).
        -- destruct IH as (pre & -> & -> & Hp & Hf).
           exists (pgproto.MsgBackendOther tag payload :: pre).
           repeat split; [done|]. by apply (forwarded_cons _ _ _ client1).
Qed.

(** C7. [relayStartup], read by how it ends. It returns nil only when
    the startup packet of the client was written to the upstream as
    encoded, the upstream then delivered messages that are neither
    ReadyForQuery nor ErrorResponse followed by a ReadyForQuery, and all
    of these, the ReadyForQuery last, were written to the client as
    encoded, in order, and nothing else. It returns an error only when an
    ErrorResponse arrived in that place, written to the client like the
    messages before it, or when an operation failed: receiving the
    startup packet, forwarding it, receiving a message, or forwarding
    one; what was received before the failure had been forwarded. It
    stays in a read only when nothing more arrives before any of this. *)
Theorem relayStartup_outcome (n : Net) :
  match relayStartup n with
  | (Returned None, n') =>
      exists startupMsg pre rfq,
        client_in n = Some (inr startupMsg)
        /\ forwarded [startupMsg] (upstreamConn n) (upstreamConn n')
        /\ upstream_in n = map inr (pre ++ [pgproto.MsgReadyForQuery rfq]) ++ upstream_in n'
        /\ forallb passes pre = true
        /\ forwarded (pre ++ [pgproto.MsgReadyForQuery rfq]) (clientConn n) (clientConn n')
  | (Returned (Some err), n') =>
      (exists startupMsg pre er,
          err = errNew "postgres: auth error from upstream"
          /\ client_in n = Some (inr startupMsg)
          /\ forwarded [startupMsg] (upstreamConn n) (upstreamConn n')
          /\ upstream_in n = map inr (pre ++ [pgproto.MsgErrorResponse er]) ++ upstream_in n'
          /\ forallb passes pre = true
          /\ forwarded (pre ++ [pgproto.MsgErrorResponse er]) (clientConn n) (clientConn n'))
      \/ (exists cause,
            err = errWrap "postgres: receive startup" cause
            /\ client_in n = Some (inl cause)
            /\ upstreamConn n' = upstreamConn n
            /\ clientConn n' = clientConn n)
      \/ (exists startupMsg cause,
            err = errWrap "postgres: send startup" cause
            /\ client_in n = Some (inr startupMsg)
            /\ fst (encodeAndWrite (upstreamConn n) startupMsg) = Some cause
            /\ upstreamConn n' = upstreamConn n
            /\ clientConn n' = clientConn n)
      \/ (exists startupMsg pre cause,
            err = errWrap "postgres: receive auth" cause
            /\ client_in n = Some (inr startupMsg)
            /\ forwarded [startupMsg] (upstreamConn n) (upstreamConn n')
            /\ upstream_in n = map inr pre ++ inl cause :: upstream_in n'
            /\ forallb passes pre = true
            /\ forwarded pre (clientConn n) (clientConn n'))
      \/ (exists startupMsg pre msg cause,
            err = errWrap "postgres: send auth" cause
            /\ client_in n = Some (inr startupMsg)
            /\ forwarded [startupMsg] (upstreamConn n) (upstreamConn n')
            /\ upstream_in n = map inr pre ++ inr msg :: upstream_in n'
            /\ forallb passes pre = true
            /\ forwarded pre (clientConn n) (clientConn n')
            /\ fst (encodeAndWrite (clientConn n') msg) = Some cause)
  | (Blocked, n') =>
      (client_in n = None /\ n' = n)
      \/ (exists startupMsg pre,
            client_in n = Some (inr startupMsg)
            /\ forwarded [startupMsg] (upstreamConn n) (upstreamConn n')
            /\ upstream_in n = map inr pre /\ upstream_in n' = []
            /\ forallb passes pre = true
            /\ forwarded pre (clientConn n) (clientConn n'))
  end.
Proof.
  unfold relayStartup.
  destruct (client_in n) as [[cause|startupMsg]|] eqn:Hin.
  - right. left. exists cause. done.
  - destruct (encodeAndWrite (upstreamConn n) startupMsg) as [[cause|] up'] eqn:Hw.
    + right. right. left. exists startupMsg, cause.
      apply encodeAndWrite_failed in Hw as Hf. destruct Hf as [-> _].
      repeat split. by rewrite Hw.
    + assert (forwarded [startupMsg] (upstreamConn n) up') as Hup.
      { eapply forwarded_cons; [exact Hw|apply forwarded_nil]. }
      pose proof (relayAuth_outcome (upstream_in n) (clientConn n)) as Hloop.
      destruct (relayAuth (upstream_in n) (clientConn n)) as [[[[err|]|] rest] client'];
        cbn [upstreamConn clientConn upstream_in].
      * destruct Hloop as [(pre & er & -> & E & Hp & Hf)
                          |[(pre & cause & -> & E & Hp & Hf)
                           |(pre & msg & cause & -> & E & Hp & Hf & Hc)]].
        -- left. by exists startupMsg, pre, er.
        -- do 3 right. left. by exists startupMsg, pre, cause.
        -- do 4 right. by exists startupMsg, pre, msg, cause.
      * destruct Hloop as (pre & rfq & E & Hp & Hf). by exists startupMsg, pre, rfq.
      * destruct Hloop as (pre & E & -> & Hp & Hf). right. by exists startupMsg, pre.
  - by left.
Qed.

End Startup.

Section StartupRuns.

Import startup.

Local Existing Instance scenario.encode_startup.
Local Existing Instance scenario.encode_backend.

(** The handshake succeeds; the notice behind the ReadyForQuery is left
    for the relay loops. *)
Example relayStartup_handshake :
  exists n',
    relayStartup scenario.handshake = (Returned None, n')
    /\ sock_written (upstreamConn n') = ["startup"]
    /\ sock_written (clientConn n') = ["Rok"; "Sserver_version"; "ZI"]
    /\ upstream_in n' = [inr (pgproto.MsgBackendOther "N" "notice")].
Proof. eexists. split; [vm_compute; reflexivity|]. done. Qed.

(** The refusal reaches the client before the relay gives up. *)
Example relayStartup_refusal :
  exists n',
    relayStartup scenario.refusal
      = (Returned (Some (errNew "postgres: auth error from upstream")), n')
    /\ sock_written (clientConn n') = ["Edenied"].
Proof. eexists. split; [vm_compute; reflexivity|]. done. Qed.

End StartupRuns.

(** ** More about a run: events and their transaction, the channel, the map *)

Section HistoryFacts.

Context `{strings.Unicode}.

Lemma last_tx_id_snoc (evs : list proxy.Event) (ev : proxy.Event) :
  last_tx_id (evs ++ [ev]) = proxy.TxID ev.
Proof. unfold last_tx_id. by rewrite last_snoc. Qed.

Lemma tx_linked_snoc (prev : string) (evs : list proxy.Event) (ev : proxy.Event) :
  tx_linked prev (evs ++ [ev])
  <-> tx_linked prev evs
      /\ (if begins_tx (proxy.Query ev) then String.length (proxy.TxID ev) = 36%nat
          else if ends_tx (proxy.Query ev) then proxy.TxID ev = EmptyString
          else proxy.TxID ev = match last evs with
                               | Some e => proxy.TxID e
                               | None => prev
                               end).
Proof.
  revert prev. induction evs as [|e evs IH]; intros prev.
  - cbn. tauto.
  - cbn [app tx_linked]. rewrite IH.
    rewrite last_cons. destruct (last evs); tauto.
Qed.

(** What a step does to the channel, the clock and the random source. *)
Lemma step_surroundings (a : Action) (w w' : World) :
  step a w = Ok tt w' ->
  w_entropy w' = w_entropy w
  /\ w_clock w' = w_clock w
  /\ ((exists ev,
          w_emitted w' = w_emitted w ++ [ev]
          /\ w_events w' = try_send ev (w_events w)
          /\ w_draws w' = draws_after (proxy.Query ev) w
          /\ proxy.TxID ev = tx_after (proxy.Query ev) w
          /\ proxy.StartTime ev = w_clock w (w_ticks w)
          /\ w_ticks w' = S (w_ticks w))
      \/ (w_emitted w' = w_emitted w
          /\ w_draws w' = w_draws w
          /\ w_ticks w' = w_ticks w
          /\ match a with
             | FromClient _ | FromUpstream _ => w_events w' = w_events w
             | _ => True
             end)).
Proof.
  destruct a as [msg|msg| |ev]; cbn [step].
  - destruct msg as [m|m|m|m|]; cbn [captureClientMsg].
    + rewrite handleSimpleQuery_eq. intros [= <-]. repeat split. left.
      eexists. repeat split.
    + rewrite handleParse_eq. intros [= <-]. repeat split. by right.
    + rewrite handleBind_eq. intros [= <-]. repeat split. by right.
    + rewrite handleExecute_eq. intros [= <-]. repeat split. left.
      eexists. repeat split.
    + intros [= <-]. repeat split. by right.
  - rewrite captureUpstreamMsg_eq. intros [= <-]. repeat split. by right.
  - intros [= <-]. repeat split. by right.
  - unfold bind, chansend, ret.
    destruct (length (chan_buf (w_events w)) <? chan_cap (w_events w))%nat;
      intros [= <-]; repeat split; by right.
Qed.

Lemma tx_linked_middle (prev : string) (l1 l2 : list proxy.Event) (ev : proxy.Event) :
  tx_linked prev (l1 ++ ev :: l2) ->
  (begins_tx (proxy.Query ev) = true -> String.length (proxy.TxID ev) = 36%nat)
  /\ (begins_tx (proxy.Query ev) = false -> ends_tx (proxy.Query ev) = true ->
      proxy.TxID ev = EmptyString)
  /\ tx_linked (proxy.TxID ev) l2.
Proof.
  revert prev. induction l1 as [|e l1 IH]; intros prev.
  - cbn [app tx_linked]. intros [Hev Hrest]. split; [|split; [|done]].
    + intros Hb. by rewrite Hb in Hev.
    + intros Hb He. by rewrite Hb, He in Hev.
  - cbn [app tx_linked]. intros [_ Hrest]. by apply (IH (proxy.TxID e)).
Qed.

Lemma tx_linked_plain (prev : string) (inside after : list proxy.Event) :
  tx_linked prev (inside ++ after) ->
  Forall plain_query inside ->
  Forall (fun ev => proxy.TxID ev = prev) inside.
Proof.
  revert prev. induction inside as [|e inside IH]; intros prev; [intros; constructor|].
  cbn [app tx_linked]. intros [He Hrest] Hplain.
  apply Forall_cons in Hplain as [[Hb Hn] Hplain].
  rewrite Hb, Hn in He. constructor; [done|].
  rewrite <- He. by apply IH.
Qed.

Lemma run_tx_linked (tr : list Action) (w w' : World) :
  run tr w = Ok tt w' ->
  tx_linked EmptyString (w_emitted w) ->
  activeTxID (w_conn w) = last_tx_id (w_emitted w) ->
  tx_linked EmptyString (w_emitted w')
  /\ activeTxID (w_conn w') = last_tx_id (w_emitted w').
Proof.
  revert w. induction tr as [|a tr IH]; intros w.
  - by intros [= <-].
  - intros (w1 & Hs & Hr)%run_cons Hl Ha. apply (IH w1 Hr).
    + destruct (step_effect a w w1 Hs)
        as [(ev & -> & _ & _ & _ & Htx & _)|(-> & _)]; [|done].
      apply tx_linked_snoc. split; [done|].
      rewrite Htx. unfold tx_after. rewrite Ha. unfold last_tx_id.
      destruct (begins_tx (proxy.Query ev)); [apply uuid_String_length|].
      destruct (ends_tx (proxy.Query ev)); [done|].
      by destruct (last (w_emitted w)).
    + destruct (step_effect a w w1 Hs)
        as [(ev & -> & _ & _ & -> & <- & _)|(-> & _ & -> & _)]; [|done].
      by rewrite last_tx_id_snoc.
Qed.

(** Events inside a transaction share its identifier; events outside
    carry none. On a connection that started fresh, after any run: an
    event of a BEGIN-class query has a non-empty identifier, and the
    events after it carry the same one as long as their queries neither
    open nor close a transaction; the event of a COMMIT- or ROLLBACK-class
    query and the plain ones after it carry the empty identifier, and so
    do the plain events at the start; [activeTxID] is the identifier of
    the last event. *)
Theorem events_share_their_transaction
    (events : chan) (clock : nat -> Time) (entropy : nat -> N)
    (tr : list Action) (w : World) :
  run tr (connect events clock entropy) = Ok tt w ->
  activeTxID (w_conn w) = last_tx_id (w_emitted w)
  /\ (forall before b inside after,
        w_emitted w = before ++ b :: inside ++ after ->
        begins_tx (proxy.Query b) = true ->
        Forall plain_query inside ->
        proxy.TxID b ≠ EmptyString
        /\ Forall (fun ev => proxy.TxID ev = proxy.TxID b) inside)
  /\ (forall before e inside after,
        w_emitted w = before ++ e :: inside ++ after ->
        ends_tx (proxy.Query e) = true ->
        Forall plain_query inside ->
        Forall (fun ev => proxy.TxID ev = EmptyString) (e :: inside))
  /\ (forall inside after,
        w_emitted w = inside ++ after ->
        Forall plain_query inside ->
        Forall (fun ev => proxy.TxID ev = EmptyString) inside).
Proof.
  intros Hrun.
  destruct (run_tx_linked tr _ w Hrun) as [Hl Ha]; [done|done|].
  split; [exact Ha|]. split; [|split].
  - intros before b inside after E Hb Hplain. rewrite E in Hl.
    apply tx_linked_middle in Hl as (Hlen & _ & Hrest).
    split.
    + intros Hempty. specialize (Hlen Hb). by rewrite Hempty in Hlen.
    + by apply (tx_linked_plain _ inside after).
  - intros before e inside after E He Hplain. rewrite E in Hl.
    apply tx_linked_middle in Hl as (_ & Hend & Hrest).
    assert (proxy.TxID e = EmptyString) as Hempty.
    { apply Hend; [|done]. destruct (begins_tx (proxy.Query e)) eqn:Hb; [|done].
      apply begins_not_ends in Hb. congruence. }
    constructor; [done|]. rewrite <- Hempty.
    by apply (tx_linked_plain _ inside after).
  - intros inside after E Hplain. rewrite E in Hl.
    by apply (tx_linked_plain _ inside after).
Qed.

Lemma count_begins_snoc (evs : list proxy.Event) (ev : proxy.Event) :
  count_begins (evs ++ [ev])
  = if begins_tx (proxy.Query ev) then S (count_begins evs) else count_begins evs.
Proof.
  induction evs as [|e evs IH]; [done|].
  cbn [app count_begins]. rewrite IH.
  by destruct (begins_tx (proxy.Query e)), (begins_tx (proxy.Query ev)).
Qed.

Lemma run_draws (tr : list Action) (w w' : World) :
  run tr w = Ok tt w' ->
  w_draws w = count_begins (w_emitted w) ->
  (forall before ev after,
      w_emitted w = before ++ ev :: after ->
      begins_tx (proxy.Query ev) = true ->
      proxy.TxID ev = uuid.String (uuid.NewRandom (w_entropy w (count_begins before)))) ->
  w_entropy w' = w_entropy w
  /\ w_draws w' = count_begins (w_emitted w')
  /\ (forall before ev after,
        w_emitted w' = before ++ ev :: after ->
        begins_tx (proxy.Query ev) = true ->
        proxy.TxID ev = uuid.String (uuid.NewRandom (w_entropy w (count_begins before)))).
Proof.
  revert w. induction tr as [|a tr IH]; intros w.
  - by intros [= <-].
  - intros (w1 & Hs & Hr)%run_cons Hd Hev.
    destruct (step_surroundings a w w1 Hs) as (He & _ & Hcase).
    destruct (IH w1 Hr) as (He' & Hd' & Hev').
    + destruct Hcase as [(ev & -> & _ & -> & _)|(-> & -> & _)]; [|done].
      rewrite count_begins_snoc. unfold draws_after.
      destruct (begins_tx (proxy.Query ev)); by rewrite Hd.
    + rewrite He.
      destruct Hcase as [(ev & -> & _ & _ & Htx & _)|(-> & _)]; [|done].
      intros before e after E Hb.
      destruct after as [|x after _] using rev_ind.
      * apply app_inj_tail in E as [E1 E2]. subst e.
        rewrite <- E1, Htx. unfold tx_after. by rewrite Hb, Hd.
      * rewrite app_comm_cons, app_assoc in E.
        apply app_inj_tail in E as [E _]. by apply (Hev before e after).
    + rewrite He', He. rewrite He in Hev'. done.
Qed.

(** Each transaction gets a draw of its own. On a connection that
    started fresh, after any run, the random source has been read once
    per event of a BEGIN-class query and not otherwise, and the event of
    the BEGIN-class query that comes after [k] others carries the UUID
    made from draw number [k]. *)
Theorem each_begin_takes_one_draw
    (events : chan) (clock : nat -> Time) (entropy : nat -> N)
    (tr : list Action) (w : World) :
  run tr (connect events clock entropy) = Ok tt w ->
  w_draws w = count_begins (w_emitted w)
  /\ forall before ev after,
       w_emitted w = before ++ ev :: after ->
       begins_tx (proxy.Query ev) = true ->
       proxy.TxID ev = uuid.String (uuid.NewRandom (entropy (count_begins before))).
Proof.
  intros Hrun.
  destruct (run_draws tr _ w Hrun) as (_ & Hd & Hev); [done| |done].
  intros before ev after E. by destruct before.
Qed.

Lemma run_channel (cap : nat) (tr : list Action) (w w' : World) :
  pumps_only tr ->
  run tr w = Ok tt w' ->
  chan_cap (w_events w) = cap ->
  chan_buf (w_events w) = take cap (w_emitted w) ->
  chan_cap (w_events w') = cap
  /\ chan_buf (w_events w') = take cap (w_emitted w').
Proof.
  revert w. induction tr as [|a tr IH]; intros w Hp.
  - by intros [= <-].
  - apply Forall_cons in Hp as [Ha Hp].
    intros (w1 & Hs & Hr)%run_cons Hc Hb. apply (IH w1 Hp Hr).
    + destruct (step_surroundings a w w1 Hs) as (_ & _ & [(ev & _ & -> & _)|(_ & _ & _ & Hch)]).
      * unfold try_send. by destruct (length (chan_buf (w_events w)) <? chan_cap (w_events w))%nat.
      * destruct a; try done; by rewrite Hch.
    + destruct (step_surroundings a w w1 Hs) as (_ & _ & [(ev & -> & -> & _)|(-> & _ & _ & Hch)]).
      * unfold try_send. rewrite Hc, Hb, length_take.
        destruct (Nat.ltb_spec (cap `min` length (w_emitted w)) cap) as [Hlt|Hge]; cbn [chan_buf].
        -- rewrite (take_ge (w_emitted w)) by lia.
           by rewrite take_ge by (rewrite length_app; cbn [length]; lia).
        -- by rewrite take_app_le by lia.
      * destruct a; try done; by rewrite Hch.
Qed.

(** With nobody receiving, the channel keeps the first events and drops
    the rest. On a fresh connection whose channel has capacity [cap] and
    is empty, after any run of the two pumps alone, the buffer holds
    exactly the first [cap] events handed to [emitEvent], in order. *)
Theorem channel_keeps_the_first_events
    (cap : nat) (clock : nat -> Time) (entropy : nat -> N)
    (tr : list Action) (w : World) :
  pumps_only tr ->
  run tr (connect (Chan cap []) clock entropy) = Ok tt w ->
  chan_cap (w_events w) = cap
  /\ chan_buf (w_events w) = take cap (w_emitted w)
  /\ length (chan_buf (w_events w)) = Nat.min (length (w_emitted w)) cap.
Proof.
  intros Hp Hrun.
  destruct (run_channel cap tr _ w Hp Hrun) as [Hc Hb];
    [done|cbn; by rewrite take_nil|].
  split; [done|]. split; [done|]. rewrite Hb, length_take. lia.
Qed.

Lemma last_named_Parse_found (name : string) (tr : list Action) (p : pgproto.Parse.t) :
  FromClient (pgproto.MsgParse p) ∈ tr ->
  pgproto.Parse.Name p = name ->
  is_Some (last_named_Parse name tr).
Proof.
  intros Hin Hname. induction tr as [|a tr IH]; [by apply elem_of_nil in Hin|].
  cbn [last_named_Parse].
  apply elem_of_cons in Hin as [<-|Hin].
  - destruct (last_named_Parse name tr); [by eexists|].
    destruct (decide (pgproto.Parse.Name p = name)); [by eexists|done].
  - destruct (IH Hin) as [q ->]. by eexists.
Qed.

(** The map knows a name exactly when a Parse of the run carried it. On a
    connection that started fresh, after any run, [preparedStmts] has an
    entry under [name] if and only if [name] is not empty and some Parse
    message of the run had that name; no entry is ever lost. *)
Theorem prepared_statements_are_the_named_parses
    (events : chan) (clock : nat -> Time) (entropy : nat -> N)
    (tr : list Action) (w : World) :
  run tr (connect events clock entropy) = Ok tt w ->
  forall name : string,
    is_Some (preparedStmts (w_conn w) !! name)
    <-> name ≠ EmptyString
        /\ exists p, FromClient (pgproto.MsgParse p) ∈ tr /\ pgproto.Parse.Name p = name.
Proof.
  intros Hrun name.
  destruct (run_invariant_run tr _ w Hrun (run_invariant_connect _ _ _)) as (_ & _ & Hu).
  destruct (run_tracker tr _ w Hrun) as (_ & _ & _ & Hm).
  destruct (decide (name = EmptyString)) as [->|Hname].
  - unfold unnamed_absent in Hu. rewrite Hu. split; [by intros [? ?]|by intros [? _]].
  - rewrite (Hm name Hname). cbn [connect newConn w_conn preparedStmts].
    rewrite lookup_empty. split.
    + intros [q Hq]. split; [done|].
      destruct (last_named_Parse name tr) as [q'|] eqn:E; [|done].
      apply last_named_Parse_in in E as (p & Hin & Hp & _). eauto.
    + intros [_ (p & Hin & Hp)].
      destruct (last_named_Parse_found name tr p Hin Hp) as [q ->]. by eexists.
Qed.

(** Event identifiers are unique. On a connection that started fresh, as
    long as at most [2^64] events were handed to [emitEvent], no two of
    them carry the same identifier. *)
Theorem event_ids_are_distinct
    (events : chan) (clock : nat -> Time) (entropy : nat -> N)
    (tr : list Action) (w : World) :
  run tr (connect events clock entropy) = Ok tt w ->
  Z.of_nat (length (w_emitted w)) <= 2 ^ 64 ->
  NoDup (map proxy.ID (w_emitted w)).
Proof.
  intros Hrun Hlen.
  destruct (run_invariant_run tr _ w Hrun (run_invariant_connect _ _ _))
    as ((_ & Hids) & _ & _).
  apply NoDup_alt. intros i j id Hi Hj.
  rewrite list_lookup_fmap in Hi, Hj.
  destruct (w_emitted w !! i) as [ei|] eqn:Ei; [|done].
  destruct (w_emitted w !! j) as [ej|] eqn:Ej; [|done].
  cbn in Hi, Hj. injection Hi as Hi. injection Hj as Hj.
  rewrite (Hids i ei Ei) in Hi. rewrite (Hids j ej Ej) in Hj.
  apply lookup_lt_Some in Ei, Ej.
  assert ((Z.of_nat i + 1) mod 2 ^ 64 = (Z.of_nat j + 1) mod 2 ^ 64) as Hmod.
  { apply FormatUint_inj; [apply Z.mod_pos_bound; lia..|congruence]. }
  destruct (decide (Z.of_nat i + 1 = 2 ^ 64)) as [Hi64|Hi64];
    destruct (decide (Z.of_nat j + 1 = 2 ^ 64)) as [Hj64|Hj64].
  - lia.
  - rewrite Hi64, Z.mod_same, Z.mod_small in Hmod by lia. lia.
  - rewrite Hj64, Z.mod_same, Z.mod_small in Hmod by lia. lia.
  - rewrite !Z.mod_small in Hmod by lia. lia.
Qed.

Lemma step_execute_start (a : Action) (w w' : World) :
  step a w = Ok tt w' ->
  (exists ev,
      w_emitted w' = w_emitted w ++ [ev]
      /\ executeStart (w_conn w')
         = match proxy.Op ev with
           | proxy.OpExecute => proxy.StartTime ev
           | _ => executeStart (w_conn w)
           end)
  \/ (w_emitted w' = w_emitted w /\ executeStart (w_conn w') = executeStart (w_conn w)).
Proof.
  destruct a as [msg|msg| |ev]; cbn [step].
  - destruct msg as [m|m|m|m|]; cbn [captureClientMsg].
    + rewrite handleSimpleQuery_eq. intros [= <-]. left. by eexists.
    + rewrite handleParse_eq. intros [= <-]. right.
      destruct w as [[] ? ? ? ? ? ?]. cbn.
      by destruct (decide (pgproto.Parse.Name m ≠ EmptyString)).
    + rewrite handleBind_eq. intros [= <-]. right. by destruct w as [[] ? ? ? ? ? ?].
    + rewrite handleExecute_eq. intros [= <-]. left. by eexists.
    + intros [= <-]. by right.
  - rewrite captureUpstreamMsg_eq. intros [= <-]. by right.
  - intros [= <-]. by right.
  - unfold bind, chansend, ret.
    destruct (length (chan_buf (w_events w)) <? chan_cap (w_events w))%nat;
      intros [= <-]; by right.
Qed.

Lemma run_times (tr : list Action) (w w' : World) :
  run tr w = Ok tt w' ->
  w_ticks w = length (w_emitted w) ->
  (forall (i : nat) ev, w_emitted w !! i = Some ev -> proxy.StartTime ev = w_clock w i) ->
  executeStart (w_conn w) = last_execute_start (w_emitted w) ->
  w_clock w' = w_clock w
  /\ w_ticks w' = length (w_emitted w')
  /\ (forall (i : nat) ev, w_emitted w' !! i = Some ev -> proxy.StartTime ev = w_clock w i)
  /\ executeStart (w_conn w') = last_execute_start (w_emitted w').
Proof.
  revert w. induction tr as [|a tr IH]; intros w.
  - by intros [= <-].
  - intros (w1 & Hs & Hr)%run_cons Ht Hev Hx.
    destruct (step_surroundings a w w1 Hs) as (_ & Hc & Hcase).
    destruct (IH w1 Hr) as (Hc' & Ht' & Hev' & Hx').
    + destruct Hcase as [(ev & -> & _ & _ & _ & _ & ->)|(-> & _ & -> & _)]; [|done].
      rewrite length_app. cbn [length]. lia.
    + rewrite Hc.
      destruct Hcase as [(ev & -> & _ & _ & _ & Hst & _)|(-> & _)]; [|done].
      intros i e Hi. apply lookup_app_Some in Hi as [Hi|[Hlen Hi]]; [by apply Hev|].
      apply list_lookup_singleton_Some in Hi as [Hi ->].
      rewrite Hst, Ht. f_equal. lia.
    + destruct (step_execute_start a w w1 Hs) as [(ev & -> & ->)|(-> & ->)]; [|done].
      unfold last_execute_start. rewrite fold_left_app. cbn [fold_left].
      by rewrite Hx.
    + rewrite Hc', Hc. by rewrite Hc in Hev'.
Qed.

(** Every event is stamped with a clock reading of its own. On a
    connection that started fresh, after any run, the clock has been read
    once per event; the event at position [i] carries reading number [i],
    so that with a clock that never goes back the start times are in the
    order of the events; and [executeStart] is the start time of the last
    Execute event (the zero time before the first). *)
Theorem event_times_are_clock_readings
    (events : chan) (clock : nat -> Time) (entropy : nat -> N)
    (tr : list Action) (w : World) :
  run tr (connect events clock entropy) = Ok tt w ->
  w_ticks w = length (w_emitted w)
  /\ (forall (i : nat) ev, w_emitted w !! i = Some ev -> proxy.StartTime ev = clock i)
  /\ ((forall i j : nat, (i <= j)%nat -> clock i <= clock j) ->
      forall (i j : nat) ei ej,
        (i <= j)%nat ->
        w_emitted w !! i = Some ei -> w_emitted w !! j = Some ej ->
        proxy.StartTime ei <= proxy.StartTime ej)
  /\ executeStart (w_conn w) = last_execute_start (w_emitted w).
Proof.
  intros Hrun.
  destruct (run_times tr _ w Hrun) as (_ & Ht & Hev & Hx); [done| |done|].
  { intros i ev Hi. cbn [connect w_emitted] in Hi. by rewrite lookup_nil in Hi. }
  split; [done|]. split; [exact Hev|]. split; [|done].
  intros Hmono i j ei ej Hij Hi Hj.
  rewrite (Hev i ei Hi), (Hev j ej Hj). by apply Hmono.
Qed.

End HistoryFacts.

Section Prepared.

Context `{strings.Unicode}.

(** Parse, Bind, Execute. From every world, a Parse followed by a Bind
    and an Execute gives one event, of operation Execute, whose arguments
    are the parameters of the Bind read as strings, and whose query is
    the text of the Parse when the Bind names the statement of the Parse
    or no statement at all; when it names another statement, the query
    is the text stored under that name, and the text of the Parse if
    there is none. *)
Theorem parse_bind_execute
    (w : World) (p : pgproto.Parse.t) (b : pgproto.Bind.t) (e : pgproto.Execute.t) :
  exists ev w',
    run [FromClient (pgproto.MsgParse p); FromClient (pgproto.MsgBind b);
         FromClient (pgproto.MsgExecute e)] w = Ok tt w'
    /\ w_emitted w' = w_emitted w ++ [ev]
    /\ proxy.Op ev = proxy.OpExecute
    /\ proxy.Args ev = map string_of_bytes (pgproto.Bind.Parameters b)
    /\ proxy.Query ev
       = (if decide (pgproto.Bind.PreparedStatement b = EmptyString
                     \/ pgproto.Bind.PreparedStatement b = pgproto.Parse.Name p)
          then pgproto.Parse.Query p
          else match preparedStmts (w_conn w) !! pgproto.Bind.PreparedStatement b with
               | Some stored => stored
               | None => pgproto.Parse.Query p
               end).
Proof.
  cbn [run step captureClientMsg]. unfold bind at 1. rewrite handleParse_eq.
  unfold bind at 1. rewrite handleBind_eq.
  unfold bind at 1. rewrite handleExecute_eq. cbv zeta.
  destruct w as [[ps lp la ls es tx nid] ? ? ? ? ? ?].
  destruct p as [name text oids]. destruct b as [portal stmt fmts params rfmts].
  cbn [w_conn with_conn pgproto.Parse.Name pgproto.Parse.Query
       pgproto.Bind.PreparedStatement pgproto.Bind.Parameters preparedStmts].
  unfold resolved_query.
  destruct (decide (name ≠ EmptyString)) as [Hname|Hname];
    destruct (decide (stmt ≠ EmptyString)) as [Hstmt|Hstmt];
    cbn [w_conn lastBindArgs lastBindStmt lastParse preparedStmts set_lastBindArgs
         set_lastBindStmt set_preparedStmts set_lastParse];
    destruct (decide (stmt ≠ EmptyString)) as [Hstmt'|Hstmt']; try done;
    (eexists _, _; split; [reflexivity|]);
    cbn [w_emitted w_conn proxy.Op proxy.Args proxy.Query execute_event
         lastBindArgs set_lastBindArgs set_lastBindStmt set_preparedStmts set_lastParse];
    (split; [done|]); (split; [done|]); (split; [done|]).
  - destruct (decide (stmt = name)) as [->|Hne].
    + rewrite lookup_insert_eq. by rewrite decide_True by (by right).
    + rewrite lookup_insert_ne by done.
      rewrite decide_False; [done|]. by intros [?|?].
  - apply dec_stable in Hstmt. by rewrite decide_True by (by left).
  - apply dec_stable in Hname. subst name.
    rewrite decide_False; [done|]. by intros [?|?].
  - apply dec_stable in Hstmt. by rewrite decide_True by (by left).
Qed.

End Prepared.

Section CountFacts.

Import strconv literal.

Lemma last_token_behind (sep : ascii) (before tok : string) :
  has_byte sep tok = false ->
  last_token sep (before +:+ String sep tok) = tok.
Proof.
  intros Htok. induction before as [|c before IH].
  - change (last_token sep (String sep tok) = tok). cbn [last_token].
    rewrite Htok. by rewrite Ascii.eqb_refl.
  - change (last_token sep (String c (before +:+ String sep tok)) = tok).
    cbn [last_token].
    assert (has_byte sep (before +:+ String sep tok) = true) as ->; [|exact IH].
    clear IH. induction before as [|c' before IH].
    + change (has_byte sep (String sep tok) = true). cbn [has_byte].
      by rewrite Ascii.eqb_refl.
    + change (has_byte sep (String c' (before +:+ String sep tok)) = true).
      cbn [has_byte]. rewrite IH. by destruct (Ascii.eqb c' sep).
Qed.

Lemma all_digits_no_byte (sep : ascii) (s : string) :
  is_digit sep = false -> all_digits s = true -> has_byte sep s = false.
Proof.
  intros Hsep. induction s as [|c rest IH]; [done|]. cbn.
  intros [Hc Hrest]%andb_true_iff.
  destruct (Ascii.eqb_spec c sep) as [->|_]; [congruence|]. by apply IH.
Qed.

Lemma FormatUint_value (n : Z) :
  0 <= n < 2 ^ 64 -> value (FormatUint n) = Some n.
Proof.
  intros Hn. unfold FormatUint, value.
  destruct (formatBits_digits 20 n EmptyString) as [Ha Hv]; [simpl; lia|done|].
  pose proof (formatBits_nonempty 19 n EmptyString) as Hne.
  destruct (formatBits 20 n EmptyString) as [|c rest] eqn:E; [done|].
  rewrite sign_split_eqb.
  cbn [all_digits] in Ha. apply andb_true_iff in Ha as [Hc Hrest].
  destruct (Ascii.eqb_spec c "+") as [->|_]; [done|].
  destruct (Ascii.eqb_spec c "-") as [->|_]; [done|].
  cbn [all_digits]. rewrite Hc, Hrest. cbn [andb]. by rewrite Hv.
Qed.

(** [parseRowsAffected] reads back a count. For every count [n] from zero
    to the largest signed 64-bit integer and every text [verb],
    [parseRowsAffected] returns [n] for the tag made of [verb], a space
    and the decimal digits of [n], and for the digits alone. *)
Theorem parseRowsAffected_reads_back_a_count (verb : string) (n : Z) :
  0 <= n <= maxInt64 ->
  parseRowsAffected (verb +:+ " " +:+ FormatUint n) = Some n
  /\ parseRowsAffected (FormatUint n) = Some n.
Proof.
  unfold maxInt64. intros Hn.
  destruct (formatBits_digits 20 n EmptyString) as [Ha _]; [simpl; lia|done|].
  assert (has_byte " " (FormatUint n) = false) as Hsp
    by (by apply all_digits_no_byte).
  assert (saturated_value (FormatUint n) = n) as Hval.
  { unfold saturated_value. rewrite FormatUint_value by lia.
    unfold saturate, minInt64, maxInt64. lia. }
  rewrite !parseRowsAffected_last_token, !ParseInt_decimal.
  split.
  - change (verb +:+ " " +:+ FormatUint n) with (verb +:+ String " " (FormatUint n)).
    by rewrite last_token_behind, Hval.
  - by rewrite last_token_no_sep, Hval.
Qed.

End CountFacts.

(** ** Closed connections and the two pumps *)

Section ClosedErrors.

Import pump.

Lemma Contains_behind_write (s : string) :
  Contains ("postgres: write: " +:+ s) "closed" = Contains s "closed".
Proof. reflexivity. Qed.

Lemma Contains_behind_encode (s : string) :
  Contains ("postgres: encode: " +:+ s) "closed" = Contains s "closed".
Proof. reflexivity. Qed.

Lemma isClosedErr_behind (context : string) (err : error) :
  (forall s, Contains (context +:+ ": " +:+ s) "closed" = Contains s "closed") ->
  isClosedErr (Errorf context err) = isClosedErr err.
Proof.
  intros Hc. unfold isClosedErr, Errorf. cbn [Is_EOF As_OpError Error].
  destruct (Is_EOF err); [done|].
  destruct (As_OpError err); [done|]. apply Hc.
Qed.

(** [encodeAndWrite] does not hide a closed connection. When it fails it
    leaves the socket as it was, and [isClosedErr] answers for the error
    it returns what it answers for the cause, which is the error of the
    encoder or the error of the write; when it succeeds the socket
    received exactly the encoded message. *)
Theorem encodeAndWrite_keeps_closed_errors {A} `{encoder A} (dst : Sock) (msg : A) :
  match encodeAndWrite dst msg with
  | (Some err, dst') =>
      dst' = dst
      /\ exists cause,
           (Encode msg = inl cause
            \/ (exists buf, Encode msg = inr buf)
               /\ sock_left dst = Some O /\ cause = sock_err dst)
           /\ Is_EOF err = Is_EOF cause
           /\ As_OpError err = As_OpError cause
           /\ isClosedErr err = isClosedErr cause
  | (None, dst') =>
      exists buf, Encode msg = inr buf /\ sock_written dst' = sock_written dst ++ [buf]
  end.
Proof.
  unfold encodeAndWrite, Write.
  destruct (Encode msg) as [cause|buf].
  - split; [done|]. exists cause. split; [by left|]. split; [done|]. split; [done|].
    apply isClosedErr_behind, Contains_behind_encode.
  - destruct (sock_left dst) as [[|k]|] eqn:E.
    + split; [done|]. exists (sock_err dst). split; [right; eauto|].
      split; [done|]. split; [done|].
      apply isClosedErr_behind, Contains_behind_write.
    + by exists buf.
    + by exists buf.
Qed.

End ClosedErrors.

Section PumpFacts.

Import pump.

Context `{strings.Unicode}.

Local Open Scope relay_scope.

Lemma pump_write_ok {A} `{encoder A} (dst dst' : Sock) (msg : A) :
  encodeAndWrite dst msg = (None, dst') ->
  exists buf, Encode msg = inr buf /\ sock_written dst' = sock_written dst ++ [buf].
Proof.
  unfold encodeAndWrite, Write.
  destruct (Encode msg) as [err|buf]; [done|].
  destruct (sock_left dst) as [[|k]|]; intros [= <-]; by exists buf.
Qed.

Lemma pump_write_failed {A} `{encoder A} (dst dst' : Sock) (msg : A) (err : error) :
  encodeAndWrite dst msg = (Some err, dst') -> dst' = dst.
Proof.
  unfold encodeAndWrite, Write.
  destruct (Encode msg) as [cause|buf]; [by intros [= _ <-]|].
  by destruct (sock_left dst) as [[|k]|]; intros [= _ <-].
Qed.

Lemma pump_forwarded_nil {A} `{encoder A} (s : Sock) : forwarded (@nil A) s s.
Proof. exists []. split; [constructor|]. by rewrite app_nil_r. Qed.

Lemma pump_forwarded_cons {A} `{encoder A} (msg : A) (msgs : list A) (s s1 s2 : Sock) :
  encodeAndWrite s msg = (None, s1) ->
  forwarded msgs s1 s2 ->
  forwarded (msg :: msgs) s s2.
Proof.
  intros (buf & Hb & Hw)%pump_write_ok (bufs & Hbs & Hws).
  exists (buf :: bufs). split; [by constructor|].
  rewrite Hws, Hw, <- app_assoc. done.
Qed.

(** The shared loop, read by its outcome, for a hook that returns. *)
Lemma pumping_outcome {Msg} `{encoder Msg} (capture : Msg -> M unit)
    (on_cancel on_receive on_send : string) :
  (forall msg w, exists w', capture msg w = Ok tt w') ->
  forall (rounds : list (Round Msg)) (dst : Sock) (w : World),
  exists out rest dst' w' seen,
    pumping capture on_cancel on_receive on_send rounds dst w = Ok (out, rest, dst') w'
    /\ captured capture seen w = Ok tt w'
    /\ ended on_cancel on_receive on_send rounds dst seen out rest dst'.
Proof.
  intros Hcap rounds.
  induction rounds as [|[cause|[cause|msg]] rounds IH]; intros dst w; cbn [pumping].
  - exists Blocked, [], dst, w, []. repeat split. apply pump_forwarded_nil.
  - eexists _, rounds, dst, w, []. split; [reflexivity|]. split; [done|].
    left. exists cause. repeat split. apply pump_forwarded_nil.
  - destruct (isClosedErr cause) eqn:Hc.
    + eexists _, rounds, dst, w, []. split; [reflexivity|]. split; [done|].
      left. exists cause. repeat split; [done|]. apply pump_forwarded_nil.
    + eexists _, rounds, dst, w, []. split; [reflexivity|]. split; [done|].
      right. left. exists cause. repeat split; [done|]. apply pump_forwarded_nil.
  - unfold bind at 1. destruct (Hcap msg w) as [w1 Hw1]. rewrite Hw1.
    destruct (encodeAndWrite dst msg) as [[err|] dst1] eqn:Hsend.
    + apply pump_write_failed in Hsend as Hsame. subst dst1.
      destruct (isClosedErr err) eqn:Hc.
      * eexists _, rounds, dst, w1, [msg]. split; [reflexivity|].
        split; [cbn [captured]; unfold bind; by rewrite Hw1|].
        right. exists [], msg, err. repeat split; [apply pump_forwarded_nil|by rewrite Hsend|done].
      * eexists _, rounds, dst, w1, [msg]. split; [reflexivity|].
        split; [cbn [captured]; unfold bind; by rewrite Hw1|].
        right. right. exists [], msg, err.
        repeat split; [apply pump_forwarded_nil|by rewrite Hsend|done].
    + destruct (IH dst1 w1) as (out & rest & dst' & w' & seen & Hrun & Hseen & Hend).
      exists out, rest, dst', w', (msg :: seen). split; [exact Hrun|].
      split; [cbn [captured]; unfold bind; by rewrite Hw1|].
      destruct out as [[e|]|]; cbn [ended] in *.
      * destruct Hend as [(cause & -> & -> & Hf)
                         |[(cause & -> & -> & Hc & Hf)
                          |(sent & last & err & -> & -> & -> & Hf & Hl & Hc)]].
        -- left. exists cause. repeat split. by apply (pump_forwarded_cons _ _ _ dst1).
        -- right. left. exists cause. repeat split; [done|].
           by apply (pump_forwarded_cons _ _ _ dst1).
        -- right. right. exists (msg :: sent), last, err.
           repeat split; [by apply (pump_forwarded_cons _ _ _ dst1)|done|done].
      * destruct Hend as [(cause & -> & Hc & Hf)
                         |(sent & last & err & -> & -> & Hf & Hl & Hc)].
        -- left. exists cause. repeat split; [done|].
           by apply (pump_forwarded_cons _ _ _ dst1).
        -- right. exists (msg :: sent), last, err.
           repeat split; [by apply (pump_forwarded_cons _ _ _ dst1)|done|done].
      * destruct Hend as (-> & -> & Hf).
        repeat split. by apply (pump_forwarded_cons _ _ _ dst1).
Qed.

(** What the shared loop returns does not depend on the world. *)
Lemma pumping_world_free {Msg} `{encoder Msg} (capture : Msg -> M unit)
    (on_cancel on_receive on_send : string) :
  (forall msg w, exists w', capture msg w = Ok tt w') ->
  forall (rounds : list (Round Msg)) (dst : Sock) (w1 w2 : World),
  exists result w1' w2',
    pumping capture on_cancel on_receive on_send rounds dst w1 = Ok result w1'
    /\ pumping capture on_cancel on_receive on_send rounds dst w2 = Ok result w2'.
Proof.
  intros Hcap rounds.
  induction rounds as [|[cause|[cause|msg]] rounds IH]; intros dst w1 w2; cbn [pumping].
  - by eexists _, _, _.
  - by eexists _, _, _.
  - destruct (isClosedErr cause); by eexists _, _, _.
  - unfold bind.
    destruct (Hcap msg w1) as [w1' ->]. destruct (Hcap msg w2) as [w2' ->].
    destruct (encodeAndWrite dst msg) as [[err|] dst1].
    + destruct (isClosedErr err); by eexists _, _, _.
    + apply IH.
Qed.

Context {encFrontend : encoder pgproto.FrontendMessage}.
Context {encBackend : encoder pgproto.BackendMessage}.

Lemma relayClientToUpstream_pumping
    (rounds : list (Round pgproto.FrontendMessage)) (upstream : Sock) (w : World) :
  relayClientToUpstream rounds upstream w
  = pumping captureClientMsg "postgres: client relay" "postgres: receive from client"
      "postgres: send to upstream" rounds upstream w.
Proof.
  revert upstream w.
  induction rounds as [|[cause|[cause|msg]] rounds IH]; intros upstream w; try reflexivity.
  cbn [relayClientToUpstream pumping]. unfold bind.
  destruct (captureClientMsg msg w) as [[] w1| |]; [|done..].
  destruct (encodeAndWrite upstream msg) as [[err|] up1]; [done|apply IH].
Qed.

Lemma relayUpstreamToClient_pumping
    (rounds : list (Round pgproto.BackendMessage)) (client : Sock) (w : World) :
  relayUpstreamToClient rounds client w
  = pumping captureUpstreamMsg "postgres: upstream relay" "postgres: receive from upstream"
      "postgres: send to client" rounds client w.
Proof.
  revert client w.
  induction rounds as [|[cause|[cause|msg]] rounds IH]; intros client w; try reflexivity.
  cbn [relayUpstreamToClient pumping]. unfold bind.
  destruct (captureUpstreamMsg msg w) as [[] w1| |]; [|done..].
  destruct (encodeAndWrite client msg) as [[err|] cl1]; [done|apply IH].
Qed.

Lemma captured_client (msgs : list pgproto.FrontendMessage) (w : World) :
  captured captureClientMsg msgs w = run (map FromClient msgs) w.
Proof.
  revert w. induction msgs as [|msg msgs IH]; intros w; [done|].
  cbn [captured map run step]. unfold bind.
  destruct (captureClientMsg msg w) as [[] w1| |]; [apply IH|done..].
Qed.

Lemma captured_upstream (msgs : list pgproto.BackendMessage) (w : World) :
  captured captureUpstreamMsg msgs w = Ok tt w.
Proof.
  induction msgs as [|msg msgs IH]; [done|].
  cbn [captured]. unfold bind. by rewrite captureUpstreamMsg_eq.
Qed.

Lemma captureClientMsg_returns (msg : pgproto.FrontendMessage) (w : World) :
  exists w', captureClientMsg msg w = Ok tt w'.
Proof. apply (step_returns (FromClient msg)). Qed.

Lemma captureUpstreamMsg_returns (msg : pgproto.BackendMessage) (w : World) :
  exists w', captureUpstreamMsg msg w = Ok tt w'.
Proof. exists w. apply captureUpstreamMsg_eq. Qed.

(** The client pump forwards what it receives, after capturing it. For
    every sequence of rounds, every upstream socket and every world,
    [relayClientToUpstream] returns or stays in a read (it never panics
    and is never parked on the channel); the world it leaves is the one
    that capturing the messages received, in order, leads to; these
    messages were written to the upstream as encoded, in order, and
    nothing else was, except that the last one was captured but not
    written when its forwarding failed; it returns nil exactly for an
    error on which [isClosedErr] holds, and otherwise the error wrapped
    in the context of the cancellation, the read or the forwarding. *)
Theorem client_pump_forwards_what_it_receives
    (rounds : list (Round pgproto.FrontendMessage)) (upstream : Sock) (w : World) :
  exists out rest upstream' w' seen,
    relayClientToUpstream rounds upstream w = Ok (out, rest, upstream') w'
    /\ run (map FromClient seen) w = Ok tt w'
    /\ ended "postgres: client relay" "postgres: receive from client"
         "postgres: send to upstream" rounds upstream seen out rest upstream'.
Proof.
  destruct (pumping_outcome captureClientMsg "postgres: client relay"
              "postgres: receive from client" "postgres: send to upstream"
              captureClientMsg_returns rounds upstream w)
    as (out & rest & up' & w' & seen & Hrun & Hseen & Hend).
  exists out, rest, up', w', seen.
  rewrite relayClientToUpstream_pumping, <- captured_client. done.
Qed.

(** The upstream pump forwards what it receives and touches nothing:
    the same as for the client pump, and the world it leaves is the world
    it was given. *)
Theorem upstream_pump_forwards_what_it_receives
    (rounds : list (Round pgproto.BackendMessage)) (client : Sock) (w : World) :
  exists out rest client' seen,
    relayUpstreamToClient rounds client w = Ok (out, rest, client') w
    /\ ended "postgres: upstream relay" "postgres: receive from upstream"
         "postgres: send to client" rounds client seen out rest client'.
Proof.
  destruct (pumping_outcome captureUpstreamMsg "postgres: upstream relay"
              "postgres: receive from upstream" "postgres: send to client"
              captureUpstreamMsg_returns rounds client w)
    as (out & rest & cl' & w' & seen & Hrun & Hseen & Hend).
  rewrite captured_upstream in Hseen. injection Hseen as <-.
  exists out, rest, cl', seen.
  rewrite relayUpstreamToClient_pumping. done.
Qed.

(** Capturing never gets in the way of relaying. What the client pump
    returns, the rounds it leaves and everything it writes to the
    upstream are the same from any two worlds: they depend neither on the
    fields of [conn], nor on how full the event channel is, nor on the
    clock or the random source. *)
Theorem client_pump_ignores_the_world
    (rounds : list (Round pgproto.FrontendMessage)) (upstream : Sock) (w1 w2 : World) :
  exists result w1' w2',
    relayClientToUpstream rounds upstream w1 = Ok result w1'
    /\ relayClientToUpstream rounds upstream w2 = Ok result w2'.
Proof.
  rewrite !relayClientToUpstream_pumping.
  apply pumping_world_free, captureClientMsg_returns.
Qed.

End PumpFacts.

(** ** More concrete runs *)

Section MoreRuns.

Local Existing Instance ascii_text.unicode.
Local Existing Instance session.encode_frontend.

(** Two transactions in a row on a channel of two: each gets the UUID of
    its own draw, the events in between share it, the two that end a
    transaction carry none, and only the first two events are kept. *)
Example two_transactions_events :
  map proxy.TxID (w_emitted (session.after session.two_transactions))
  = ["00000000-0000-4000-8000-000000000000"; "00000000-0000-4000-8000-000000000000";
     EmptyString;
     "00000000-0000-4000-8000-000000000001"; "00000000-0000-4000-8000-000000000001";
     EmptyString]
  /\ map proxy.ID (chan_buf (w_events (session.after session.two_transactions)))
     = ["1"; "2"]
  /\ map proxy.StartTime (w_emitted (session.after session.two_transactions))
     = [0; 1; 2; 3; 4; 5].
Proof. vm_compute. done. Qed.

Lemma events_share_their_transaction_witness :
  run session.two_transactions session.narrow
    = Ok tt (session.after session.two_transactions)
  /\ activeTxID (w_conn (session.after session.two_transactions))
     = last_tx_id (w_emitted (session.after session.two_transactions)).
Proof.
  assert (run session.two_transactions session.narrow
          = Ok tt (session.after session.two_transactions))
    as Hrun by (vm_compute; reflexivity).
  destruct (events_share_their_transaction _ _ _ _ _ Hrun) as (Ha & _).
  split; [exact Hrun|exact Ha].
Defined.

Lemma each_begin_takes_one_draw_witness :
  run session.two_transactions session.narrow
    = Ok tt (session.after session.two_transactions)
  /\ w_draws (session.after session.two_transactions)
     = count_begins (w_emitted (session.after session.two_transactions)).
Proof.
  assert (run session.two_transactions session.narrow
          = Ok tt (session.after session.two_transactions))
    as Hrun by (vm_compute; reflexivity).
  destruct (each_begin_takes_one_draw _ _ _ _ _ Hrun) as (Hd & _).
  split; [exact Hrun|exact Hd].
Defined.

Lemma channel_keeps_the_first_events_witness :
  pumps_only session.two_transactions
  /\ run session.two_transactions session.narrow
     = Ok tt (session.after session.two_transactions)
  /\ chan_buf (w_events (session.after session.two_transactions))
     = take 2 (w_emitted (session.after session.two_transactions)).
Proof.
  assert (pumps_only session.two_transactions) as Hp by (repeat constructor).
  assert (run session.two_transactions session.narrow
          = Ok tt (session.after session.two_transactions))
    as Hrun by (vm_compute; reflexivity).
  destruct (channel_keeps_the_first_events 2 _ _ _ _ Hp Hrun) as (_ & Hb & _).
  split; [exact Hp|]. split; [exact Hrun|exact Hb].
Defined.

Lemma prepared_statements_are_the_named_parses_witness :
  run scenario.prepared scenario.fresh = Ok tt (scenario.after scenario.prepared)
  /\ is_Some (preparedStmts (w_conn (scenario.after scenario.prepared)) !! "p1")
  /\ ~ is_Some (preparedStmts (w_conn (scenario.after scenario.prepared)) !! "p2").
Proof.
  assert (run scenario.prepared scenario.fresh = Ok tt (scenario.after scenario.prepared))
    as Hrun by (vm_compute; reflexivity).
  pose proof (prepared_statements_are_the_named_parses _ _ _ _ _ Hrun) as Hiff.
  split; [exact Hrun|]. split.
  - apply Hiff. split; [discriminate|].
    exists (pgproto.Parse.Build "p1" "INSERT INTO t VALUES ($1)" []).
    split; [|reflexivity].
    apply elem_of_cons. right. apply elem_of_cons. left. reflexivity.
  - intros Hsome. apply Hiff in Hsome as [_ (p & Hin & Hp)].
    unfold scenario.prepared in Hin.
    apply elem_of_cons in Hin as [Hin|Hin]; [discriminate Hin|].
    apply elem_of_cons in Hin as [Hin|Hin].
    + injection Hin as ->. discriminate Hp.
    + apply elem_of_cons in Hin as [Hin|Hin]; [discriminate Hin|].
      by apply elem_of_nil in Hin.
Defined.

Lemma event_ids_are_distinct_witness :
  run session.two_transactions session.narrow
    = Ok tt (session.after session.two_transactions)
  /\ Z.of_nat (length (w_emitted (session.after session.two_transactions))) <= 2 ^ 64
  /\ NoDup (map proxy.ID (w_emitted (session.after session.two_transactions))).
Proof.
  assert (run session.two_transactions session.narrow
          = Ok tt (session.after session.two_transactions))
    as Hrun by (vm_compute; reflexivity).
  assert (Z.of_nat (length (w_emitted (session.after session.two_transactions))) <= 2 ^ 64)
    as Hlen by (vm_compute; discriminate).
  split; [exact Hrun|]. split; [exact Hlen|].
  exact (event_ids_are_distinct _ _ _ _ _ Hrun Hlen).
Defined.

Lemma event_times_are_clock_readings_witness :
  run session.two_transactions session.narrow
    = Ok tt (session.after session.two_transactions)
  /\ w_ticks (session.after session.two_transactions)
     = length (w_emitted (session.after session.two_transactions)).
Proof.
  assert (run session.two_transactions session.narrow
          = Ok tt (session.after session.two_transactions))
    as Hrun by (vm_compute; reflexivity).
  destruct (event_times_are_clock_readings _ _ _ _ _ Hrun) as (Ht & _).
  split; [exact Hrun|exact Ht].
Defined.

Lemma parseRowsAffected_reads_back_a_count_witness :
  0 <= 5 <= literal.maxInt64
  /\ parseRowsAffected ("INSERT 0" +:+ " " +:+ strconv.FormatUint 5) = Some 5.
Proof.
  assert (0 <= 5 <= literal.maxInt64) as Hn by (vm_compute; split; discriminate).
  split; [exact Hn|].
  exact (proj1 (parseRowsAffected_reads_back_a_count "INSERT 0" 5 Hn)).
Defined.

(** The client pump on two queries: the first reaches the upstream, the
    write of the second fails on the closed connection, which ends the
    pump without an error; both queries have their events. *)
Example client_pump_on_a_closing_upstream :
  exists w' up',
    pump.relayClientToUpstream session.two_queries session.closing session.narrow
    = Ok (pump.Returned None, [pump.Got (inl pump.io_EOF)], up') w'
    /\ pump.sock_written up' = ["QSELECT 1"]
    /\ map proxy.Query (w_emitted w') = ["SELECT 1"; "SELECT 2"].
Proof. eexists _, _. split; [vm_compute; reflexivity|]. done. Qed.

(** [isClosedErr] on the errors a relay meets. *)
Example isClosedErr_examples :
  pump.isClosedErr pump.io_EOF = true
  /\ pump.isClosedErr (pump.Errorf "postgres: write" session.closed_write) = true
  /\ pump.isClosedErr (pump.errorString "unexpected EOF") = false
  /\ pump.isClosedErr (pump.errorString "connection closed by peer") = true
  /\ pump.isClosedErr
       (pump.OpError "read" "tcp" None None (pump.errorString "connection closed by peer"))
     = false.
Proof. vm_compute. done. Qed.

End MoreRuns.
